(** * Forward computation of the GNN notebooks (gnns/gat.ipynb, gnns/rgcn.ipynb)

    A shallow embedding of the NumPy cells of the two notebooks.

    Numbers.  NumPy's float arrays are modelled over the real numbers [R]:
    rounding, overflow, [inf] and [nan] are outside the model.  Integer
    arrays (the adjacency matrices) are modelled over [Z].

    Arrays.  A 2-D array carries its [shape] next to its rows, as a NumPy
    array does, so that an array with a zero dimension keeps the other one.
    A 1-D array is a list, a 3-D array is the list of its slices along
    axis 0.

    Errors.  The NumPy operations that raise (shape mismatch in [dot],
    reduction of an empty array, out-of-range index, assignment of a value
    array that cannot be broadcast) return [Raise]; a cell is a sequence of
    such operations in the error monad. *)

From Stdlib Require Import Reals Lra Lia List ZArith Bool Arith PeanoNat.
Import ListNotations.

Set Implicit Arguments.

Local Open Scope R_scope.

(* ------------------------------------------------------------------ *)
(** ** Exceptions *)

Inductive exn : Type :=
| ValueError
| IndexError
| TypeError.

Inductive result (A : Type) : Type :=
| Ok (a : A)
| Raise (e : exn).

Arguments Ok {A} a.
Arguments Raise {A} e.

Definition bind {A B : Type} (m : result A) (k : A -> result B) : result B :=
  match m with
  | Ok a => k a
  | Raise e => Raise e
  end.

Notation "x <- m ;; k" := (bind m (fun x => k))
  (at level 61, m at next level, right associativity).

(** Runs the computations from left to right; the first exception wins. *)
Fixpoint sequence {A : Type} (l : list (result A)) : result (list A) :=
  match l with
  | [] => Ok []
  | m :: l' => a <- m ;; r <- sequence l' ;; Ok (a :: r)
  end.

(* ------------------------------------------------------------------ *)
(** ** Arrays *)

Record array2 (T : Type) : Type := mkArray2 {
  nrows : nat;
  ncols : nat;
  rows : list (list T)
}.

Definition matrix := array2 R.
Definition imatrix := array2 Z.

(** The invariant of every NumPy 2-D array: the data fill the shape. *)
Definition wf {T : Type} (M : array2 T) : Prop :=
  length (rows M) = nrows M /\ Forall (fun r => length r = ncols M) (rows M).

Definition has_shape {T : Type} (n m : nat) (M : array2 T) : Prop :=
  wf M /\ nrows M = n /\ ncols M = m.

(** What [softmax] and the head combiner see of a NumPy value. *)
Inductive ndarray : Type :=
| Scalar (x : R)
| Vec (v : list R)
| Mat (m : matrix).

Definition row {T : Type} (M : array2 T) (i : nat) : list T := nth i (rows M) [].

Definition get (M : matrix) (i j : nat) : R := nth j (row M i) 0.
Definition iget (A : imatrix) (i j : nat) : Z := nth j (row A i) 0%Z.

(* ------------------------------------------------------------------ *)
(** ** Vectors *)

Fixpoint map2 {A B C : Type} (f : A -> B -> C) (u : list A) (v : list B) : list C :=
  match u, v with
  | a :: u', b :: v' => f a b :: map2 f u' v'
  | _, _ => []
  end.

Definition vadd (u v : list R) : list R := map2 Rplus u v.
Definition vscale (a : R) (v : list R) : list R := map (Rmult a) v.
Definition vzero (m : nat) : list R := repeat 0 m.
Definition vsum (m : nat) (l : list (list R)) : list R := fold_right vadd (vzero m) l.
Definition Rsum (l : list R) : R := fold_right Rplus 0 l.

(* ------------------------------------------------------------------ *)
(** ** NumericKernel (gat.ipynb, cell 2) *)

(** [np.where(z > 0, z, z * 0.01)] on one entry. *)
Definition leaky_relu1 (z : R) : R :=
  if Rlt_dec 0 z then z else z * (1 / 100).

(** [leaky_relu(z)] on a 2-D array. *)
Definition leaky_relu (z : matrix) : matrix :=
  mkArray2 (nrows z) (ncols z) (map (map leaky_relu1) (rows z)).

(** [np.max(z)] on a 1-D array: raises on an empty one. *)
Definition np_max (z : list R) : result R :=
  match z with
  | [] => Raise ValueError
  | x :: z' => Ok (fold_left Rmax z' x)
  end.

(** Python's builtin [sum] on a 1-D array: [0 + z0 + z1 + ...]. *)
Definition py_sum (z : list R) : R := fold_left Rplus z 0.

(** Column [j] of [M], top to bottom. *)
Definition column {T : Type} (d : T) (M : array2 T) (j : nat) : list T :=
  map (fun r => nth j r d) (rows M).

(** [np.max(z, axis=0)]: the maximum of every column; raises when there
    is no row to reduce over. *)
Definition np_max_axis0 (z : matrix) : result (list R) :=
  if (nrows z =? 0)%nat then Raise ValueError
  else sequence (map (fun j => np_max (column 0 z j)) (seq 0 (ncols z))).

(** [np.sum(e, axis=0, keepdims=True)], as the row it broadcasts. *)
Definition np_sum_axis0 (e : matrix) : list R :=
  map (fun j => Rsum (column 0 e j)) (seq 0 (ncols e)).

(** The vector branch of [softmax]. *)
Definition softmax_vec (z : list R) : result (list R) :=
  vector_max_value <- np_max z ;;
  let ez := map (fun x => exp (x - vector_max_value)) z in
  Ok (map (fun x => x / py_sum ez) ez).

(** The matrix branch of [softmax]: column-wise. *)
Definition softmax_mat (z : matrix) : result matrix :=
  max_matrix <- np_max_axis0 z ;;
  let stable_z := map (fun r => map2 Rminus r max_matrix) (rows z) in
  let e := mkArray2 (nrows z) (ncols z) (map (map exp) stable_z) in
  let s := np_sum_axis0 e in
  Ok (mkArray2 (nrows z) (ncols z) (map (fun r => map2 Rdiv r s) (rows e))).

(** [softmax(z)]: dispatch on [len(z.shape) > 1].  A 0-d value takes the
    vector branch, where the builtin [sum] cannot iterate over it.  The
    final [assert a.shape == z.shape] never fails: the result has the
    shape of the argument (theorem C8 below). *)
Definition softmax (z : ndarray) : result ndarray :=
  match z with
  | Mat m => a <- softmax_mat m ;; Ok (Mat a)
  | Vec v => a <- softmax_vec v ;; Ok (Vec a)
  | Scalar _ => Raise TypeError
  end.

(* ------------------------------------------------------------------ *)
(** ** Linear algebra *)

(** [u . B] for a row vector [u] and the rows of [B] ([m] columns):
    the combination [sum_k u[k] * B[k]]. *)
Definition vecmat (m : nat) (u : list R) (B : list (list R)) : list R :=
  vsum m (map2 vscale u B).

(** [A.dot(B)] on 2-D arrays; raises when the inner dimensions differ. *)
Definition dot (A B : matrix) : result matrix :=
  if (ncols A =? nrows B)%nat
  then Ok (mkArray2 (nrows A) (ncols B)
             (map (fun u => vecmat (ncols B) u (rows B)) (rows A)))
  else Raise ValueError.

(** [M.T] *)
Definition transpose (M : matrix) : matrix :=
  mkArray2 (ncols M) (nrows M) (map (column 0 M) (seq 0 (ncols M))).

(** [np.zeros(shape)] *)
Definition zeros (n m : nat) : matrix := mkArray2 n m (repeat (vzero m) n).

(** An integer array used in float arithmetic. *)
Definition astype_float (A : imatrix) : matrix :=
  mkArray2 (nrows A) (ncols A) (map (map IZR) (rows A)).

(** [np.diag(v)] for a 1-D [v]. *)
Definition np_diag (v : list R) : matrix :=
  let n := length v in
  mkArray2 n n
    (map (fun i => map (fun j => if (i =? j)%nat then nth i v 0 else 0) (seq 0 n))
         (seq 0 n)).

(** [np.concatenate(Ms, axis=1)]: needs one array at least, and the same
    number of rows in all of them. *)
Definition concatenate_axis1 (Ms : list matrix) : result matrix :=
  match Ms with
  | [] => Raise ValueError
  | M0 :: rest =>
      if forallb (fun M => (nrows M =? nrows M0)%nat) rest
      then Ok (mkArray2 (nrows M0) (list_sum (map (@ncols R) Ms))
                 (map (fun i => flat_map (fun M => row M i) Ms) (seq 0 (nrows M0))))
      else Raise ValueError
  end.

(** [M[idx]] for an index array [idx]: the rows named by [idx]. *)
Definition take_rows (M : matrix) (idx : list nat) : result matrix :=
  if forallb (fun i => (i <? nrows M)%nat) idx
  then Ok (mkArray2 (length idx) (ncols M) (map (row M) idx))
  else Raise IndexError.

(** [M.reshape(-1,)] *)
Definition reshape_flat (M : matrix) : list R := concat (rows M).

(** [M[:, k]] *)
Definition getcol (M : matrix) (k : nat) : result (list R) :=
  if (k <? ncols M)%nat then Ok (column 0 M k) else Raise IndexError.

(** [l[i] = x] inside the range of [l]. *)
Fixpoint update {T : Type} (l : list T) (i : nat) (x : T) : list T :=
  match l, i with
  | [], _ => []
  | _ :: l', O => x :: l'
  | y :: l', S i' => y :: update l' i' x
  end.

(** [M[r, c] = x] *)
Definition set2 (M : matrix) (p : nat * nat * R) : matrix :=
  let '(r, c, x) := p in
  mkArray2 (nrows M) (ncols M) (update (rows M) r (update (row M r) c x)).

(** [M[rows, cols] = v] with the coordinate arrays zipped in [coords]:
    [v] has one value per coordinate, or a single value for all of them;
    anything else cannot be broadcast. *)
Definition setitem (M : matrix) (coords : list (nat * nat)) (v : list R) : result matrix :=
  if forallb (fun p => (fst p <? nrows M)%nat && (snd p <? ncols M)%nat) coords
  then
    if (length v =? length coords)%nat
    then Ok (fold_left set2 (combine coords v) M)
    else if (length v =? 1)%nat
    then Ok (fold_left set2 (combine coords (repeat (hd 0 v) (length coords))) M)
    else Raise ValueError
  else Raise IndexError.

(* ------------------------------------------------------------------ *)
(** ** GAT layer (gat.ipynb, cells 4 to 7) *)

(** Equation (1): [z1 = X.dot(W.T)], with [W] of shape (emb, n). *)
Definition z1_of (X W : matrix) : result matrix := dot X (transpose W).

(** [np.where(A == 1)]: the coordinates of the entries equal to 1, in
    row-major order; [edge_coords[0]] is [map fst], [edge_coords[1]] is
    [map snd]. *)
Definition where_eq1 (A : imatrix) : list (nat * nat) :=
  flat_map
    (fun r => map (pair r) (filter (fun c => (iget A r c =? 1)%Z) (seq 0 (ncols A))))
    (seq 0 (nrows A)).

(** Equation (2), first half: one row [z1[src] ++ z1[dst]] per edge. *)
Definition z2_of (A : imatrix) (z1 : matrix) : result matrix :=
  let edge_coords := where_eq1 A in
  h_src_nodes <- take_rows z1 (map fst edge_coords) ;;
  h_dst_nodes <- take_rows z1 (map snd edge_coords) ;;
  concatenate_axis1 [h_src_nodes; h_dst_nodes].

(** Equation (2), second half: [e = leaky_relu(z2.dot(att.T))], a column
    with one score per edge.  The two assertions of the cell, on the
    number of rows of [z2] and on its row 4, test the notebook's own run
    and are left out.  The second one reads [z2[4, :]] and stops the
    cell with an IndexError on a graph of fewer than five edges: the
    model is that of the cell on graphs of five edges at least, which
    the statements on sparse graphs ask for and the graphs of the
    examples below have. *)
Definition e_of (A : imatrix) (z1 att : matrix) : result matrix :=
  z2 <- z2_of A z1 ;;
  z2_att <- dot z2 (transpose att) ;;
  Ok (leaky_relu z2_att).

(** Equation (3): the scores as a dense matrix. *)
Definition e_matr_of (A : imatrix) (e : matrix) : result matrix :=
  setitem (zeros (nrows A) (ncols A)) (where_eq1 A) (reshape_flat e).

(** The mask [col != 0]. *)
Definition nonzero (x : R) : bool := if Req_dec_T x 0 then false else true.

(** [alpha_k = softmax(e_matr[:,k][e_matr[:,k] != 0])]; the argument is
    1-D, so this is the vector branch of [softmax]. *)
Definition alpha_k (e_matr : matrix) (k : nat) : result (list R) :=
  col <- getcol e_matr k ;;
  softmax_vec (filter nonzero col).

(** [alpha = np.concatenate((alpha_0, ..., alpha_(n-1)))].  The notebook
    writes the columns out for its five nodes: see [alpha]. *)
Definition alpha_upto (n : nat) (e_matr : matrix) : result (list R) :=
  l <- sequence (map (alpha_k e_matr) (seq 0 n)) ;;
  Ok (concat l).

(** [alpha = np.concatenate((alpha0, alpha1, alpha2, alpha3, alpha4))] *)
Definition alpha : matrix -> result (list R) := alpha_upto 5.

(** Equation (3): the normalized scores scattered through the edge list. *)
Definition A_scaled_upto (n : nat) (A : imatrix) (e : matrix) : result matrix :=
  e_matr <- e_matr_of A e ;;
  al <- alpha_upto n e_matr ;;
  setitem (zeros (nrows A) (ncols A)) (where_eq1 A) al.

(** Equation (4): [ND_GAT = A_scaled.dot(z1)]. *)
Definition ND_GAT_upto (n : nat) (A : imatrix) (z1 att : matrix) : result matrix :=
  e <- e_of A z1 att ;;
  A_scaled <- A_scaled_upto n A e ;;
  dot A_scaled z1.

(** The cells 4 to 7 in a row, for the notebook's five nodes. *)
Definition ND_GAT (X W : matrix) (A : imatrix) (att : matrix) : result matrix :=
  z1 <- z1_of X W ;;
  ND_GAT_upto 5 A z1 att.

(* ------------------------------------------------------------------ *)
(** ** Multi-head combination (gat.ipynb, cell 10) *)

(** [np.concatenate((layer1, layer2), axis=1)] *)
Definition concat_heads (layer1 layer2 : matrix) : result matrix :=
  concatenate_axis1 [layer1; layer2].

(** [np.sum((layer1, layer2))]: the sum of all entries of all arrays. *)
Definition np_sum_all (Ms : list matrix) : R :=
  Rsum (map (fun M => Rsum (map Rsum (rows M))) Ms).

(** [average = np.sum((layer1, layer2)) / 30]: a 0-d value, for two heads
    of the same shape as in the cell, where both are [ND_GAT] (NumPy does
    not stack heads of different shapes). *)
Definition average (layer1 layer2 : matrix) : ndarray :=
  Scalar (np_sum_all [layer1; layer2] / 30).

(* ------------------------------------------------------------------ *)
(** ** GNN, GCN and R-GCN (rgcn.ipynb) *)

(** Cell 3: [L_0 = X.dot(W)], with [W] of shape (n, emb). *)
Definition L_0_of (X W : matrix) : result matrix := dot X W.

(** Cell 3: [ND_GNN = A_und.dot(L_0)].  The assertions that close cells
    3, 4 and 5 test entry (0, 0) of the notebook's own run and are left
    out. *)
Definition ND_GNN_of (A : imatrix) (L_0 : matrix) : result matrix :=
  dot (astype_float A) L_0.

(** Cell 4: [D = A_und.sum(axis=1)]. *)
Definition D_of (A : imatrix) : list Z :=
  map (fun r => fold_right Z.add 0%Z r) (rows A).

(** Cell 4: [D_rec = np.diag(np.reciprocal(D.astype(np.float32)))].
    [np.reciprocal] raises nothing at 0 (it warns and yields [inf]); the
    value of the model at a zero degree, [/ 0], carries no meaning. *)
Definition D_rec_of (A : imatrix) : matrix :=
  np_diag (map (fun d => / IZR d) (D_of A)).

(** Cell 4: [ND_GCN = D_rec.dot(ND_GNN)]. *)
Definition ND_GCN_of (A : imatrix) (L_0 : matrix) : result matrix :=
  ND_GNN <- ND_GNN_of A L_0 ;;
  dot (D_rec_of A) ND_GNN.

(** Cell 5: [np.matmul(X, W_rels)], a 2-D array against every slice. *)
Definition matmul_2d_3d (X : matrix) (W_rels : list matrix) : result (list matrix) :=
  sequence (map (dot X) W_rels).

(** Cell 5: [np.matmul(A_rels, L_0_rels)], slice by slice; a batch of one
    slice is broadcast against the other batch. *)
Definition matmul_3d_3d (As Bs : list matrix) : result (list matrix) :=
  if (length As =? length Bs)%nat then sequence (map2 dot As Bs)
  else if (length As =? 1)%nat then sequence (map (dot (hd (zeros 0 0) As)) Bs)
  else if (length Bs =? 1)%nat then sequence (map (fun A => dot A (hd (zeros 0 0) Bs)) As)
  else Raise ValueError.

(** Elementwise sum of two arrays of the same shape. *)
Definition madd (P Q : matrix) : matrix :=
  mkArray2 (nrows P) (ncols P) (map2 vadd (rows P) (rows Q)).

(** Cell 5: [np.sum(T, axis=0)] on a 3-D array with at least one slice
    (with none, the list of slices does not keep the shape). *)
Definition np_sum_slices (T : list matrix) : matrix :=
  match T with
  | [] => zeros 0 0
  | M :: T' => fold_left madd T' M
  end.

(** Cell 5: [RGCN = np.sum(np.matmul(A_rels, np.matmul(X, W_rels)), axis=0)]. *)
Definition RGCN_of (A_rels : list imatrix) (X : matrix) (W_rels : list matrix)
  : result matrix :=
  L_0_rels <- matmul_2d_3d X W_rels ;;
  ND_GCN <- matmul_3d_3d (map astype_float A_rels) L_0_rels ;;
  Ok (np_sum_slices ND_GCN).

(** Cells 3 of rgcn.ipynb in a row: plain uniform aggregation. *)
Definition GNN_layer (A : imatrix) (X W : matrix) : result matrix :=
  L_0 <- L_0_of X W ;;
  ND_GNN_of A L_0.

(* ------------------------------------------------------------------ *)
(** ** Vocabulary of the statements *)

(** [mx] is the greatest element of [v]. *)
Definition is_max (mx : R) (v : list R) : Prop :=
  In mx v /\ Forall (fun x => x <= mx) v.

(** The maximum [np.max] finds in a non-empty vector. *)
Definition max_of (v : list R) : R :=
  match v with
  | [] => 0
  | x :: l => fold_left Rmax l x
  end.

(** Subtract [mx], exponentiate, divide by the sum. *)
Definition softmax_entries (mx : R) (v : list R) : list R :=
  map (fun x => exp (x - mx) / Rsum (map (fun y => exp (y - mx)) v)) v.

(** The nodes [j] with [A[i][j] = 1], in ascending order. *)
Definition neighbors (A : imatrix) (i : nat) : list nat :=
  filter (fun j => (iget A i j =? 1)%Z) (seq 0 (ncols A)).

(** The sources [j] of the edges into [i] ([A[j][i] = 1]), ascending. *)
Definition incoming (A : imatrix) (i : nat) : list nat :=
  filter (fun j => (iget A j i =? 1)%Z) (seq 0 (nrows A)).

(** Every entry is 0 or 1. *)
Definition binary (A : imatrix) : Prop :=
  Forall (Forall (fun a => a = 0%Z \/ a = 1%Z)) (rows A).

(** [A] equals its transpose. *)
Definition symmetric (A : imatrix) : Prop :=
  forall i j, (i < nrows A)%nat -> (j < nrows A)%nat -> iget A i j = iget A j i.

(** The rectified score of the edge from [src] to [dst]. *)
Definition edge_score (z1 att : matrix) (src dst : nat) : R :=
  leaky_relu1 (Rsum (map2 Rmult (row z1 src ++ row z1 dst) (row att 0))).

(** The scores of the edges into [i], by ascending source. *)
Definition incoming_scores (A : imatrix) (z1 att : matrix) (i : nat) : list R :=
  map (fun j => edge_score z1 att j i) (incoming A i).

(** The value paired with the key [k], if any. *)
Fixpoint lookup (l : list (nat * R)) (k : nat) : option R :=
  match l with
  | [] => None
  | (k', x) :: l' => if (k' =? k)%nat then Some x else lookup l' k
  end.

(** The sources of the edges into [i] whose score passes the mask
    [!= 0]. *)
Definition incoming_nonzero (A : imatrix) (z1 att : matrix) (i : nat) : list nat :=
  filter (fun j => nonzero (edge_score z1 att j i)) (incoming A i).

(** The score of an edge given as a pair of coordinates. *)
Definition score_of (z1 att : matrix) (p : nat * nat) : R :=
  edge_score z1 att (fst p) (snd p).


(** The value paired with the coordinates [(r, c)], if any. *)
Fixpoint assoc2 (l : list (nat * nat * R)) (r c : nat) : option R :=
  match l with
  | [] => None
  | (r', c', x) :: l' =>
      if ((r' =? r) && (c' =? c))%nat then Some x else assoc2 l' r c
  end.

(** An entry nothing was assigned to stays 0. *)
Definition or_zero (o : option R) : R :=
  match o with
  | Some x => x
  | None => 0
  end.


(** The elementwise mean of [K] matrices of [n] rows and [m] columns. *)
Definition mean_heads (n m : nat) (heads : list matrix) : matrix :=
  mkArray2 n m
    (map (fun i => map (fun j => Rsum (map (fun H => get H i j) heads)
                                 / INR (length heads)) (seq 0 m))
         (seq 0 n)).


(* ------------------------------------------------------------------ *)
(** ** Inputs of the examples *)

(** Five one-hot feature rows. *)
Definition X_onehot : matrix :=
  mkArray2 5 5 [[1; 0; 0; 0; 0]; [0; 1; 0; 0; 0]; [0; 0; 1; 0; 0];
                [0; 0; 0; 1; 0]; [0; 0; 0; 0; 1]].


(** The same, projecting node 0 to 0. *)
Definition W_node0_zero : matrix := mkArray2 1 5 [[0; 1; 1; 1; 1]].

(** [X_onehot.dot(W_ones.T)] *)
Definition z1_ones : matrix := mkArray2 5 1 [[1]; [1]; [1]; [1]; [1]].

(** Attention coefficients: only the source embedding counts. *)
Definition att_src : matrix := mkArray2 1 2 [[1; 0]].

(** Five nodes with a self-loop each. *)
Definition A_selfloops : imatrix :=
  mkArray2 5 5 [[1; 0; 0; 0; 0]; [0; 1; 0; 0; 0]; [0; 0; 1; 0; 0];
                [0; 0; 0; 1; 0]; [0; 0; 0; 0; 1]]%Z.

(** The same with the directed edge from node 0 to node 1: not symmetric. *)
Definition A_directed : imatrix :=
  mkArray2 5 5 [[1; 1; 0; 0; 0]; [0; 1; 0; 0; 0]; [0; 0; 1; 0; 0];
                [0; 0; 0; 1; 0]; [0; 0; 0; 0; 1]]%Z.


(** The cycle on five nodes: every node has degree 2. *)
Definition A_cycle : imatrix :=
  mkArray2 5 5 [[0; 1; 0; 0; 1]; [1; 0; 1; 0; 0]; [0; 1; 0; 1; 0];
                [0; 0; 1; 0; 1]; [1; 0; 0; 1; 0]]%Z.

(** Row 0 as in the notebook's adjacency matrix, and node 3 without any
    edge: its degree is zero. *)
Definition A_zero_degree : imatrix :=
  mkArray2 5 5 [[1; 1; 1; 0; 1]; [1; 1; 1; 0; 1]; [1; 1; 1; 0; 0];
                [0; 0; 0; 0; 0]; [1; 1; 0; 0; 1]]%Z.

(** Projected features with [emb = 1]. *)
Definition L_0_example : matrix := mkArray2 5 1 [[1]; [2]; [3]; [4]; [5]].

(** The output of one attention head, used for both heads as the
    notebook does ([layer1 = layer2 = ND_GAT]). *)
Definition head_example : matrix :=
  mkArray2 5 3 [[1; 0; 0]; [0; 1; 0]; [0; 0; 1]; [0; 0; 0]; [0; 0; 0]].

(* ------------------------------------------------------------------ *)
(** ** Graph and feature generation (gat.ipynb cell 3, rgcn.ipynb cells 2 and 5)

    The random draws are arguments: the permutation [np.random.shuffle]
    applies, the matrix [np.random.randint] returns. *)

(** [np.eye(n, m)] *)
Definition np_eye (n m : nat) : matrix :=
  mkArray2 n m
    (map (fun i => map (fun j => if (i =? j)%nat then 1 else 0) (seq 0 m)) (seq 0 n)).

(** [np.random.shuffle(X)]: the rows of [X] in the order [perm], the
    permutation of the row indices that was drawn. *)
Definition shuffle (perm : list nat) (X : matrix) : matrix :=
  mkArray2 (nrows X) (ncols X) (map (row X) perm).

(** [X = np.eye(n, n); np.random.shuffle(X)] *)
Definition X_of (n : nat) (perm : list nat) : matrix := shuffle perm (np_eye n n).

(** [np.fill_diagonal(A, v)]: the entries [(i, i)] inside the array. *)
Definition fill_diagonal (A : imatrix) (v : Z) : imatrix :=
  mkArray2 (nrows A) (ncols A) (map (fun i => update (row A i) i v) (seq 0 (nrows A))).

(** [A.T] on an integer array. *)
Definition itranspose (A : imatrix) : imatrix :=
  mkArray2 (ncols A) (nrows A) (map (column 0%Z A) (seq 0 (ncols A))).

(** Broadcasting of one dimension: equal lengths, or one of them 1. *)
Definition bdim (a b : nat) : option nat :=
  if (a =? b)%nat then Some a
  else if (a =? 1)%nat then Some b
  else if (b =? 1)%nat then Some a
  else None.

(** [A + B] on 2-D integer arrays, with broadcasting. *)
Definition iadd (A B : imatrix) : result imatrix :=
  match bdim (nrows A) (nrows B), bdim (ncols A) (ncols B) with
  | Some n, Some m =>
      Ok (mkArray2 n m
            (map (fun i =>
                    map (fun j =>
                           (iget A (if (nrows A =? 1)%nat then 0 else i)
                                   (if (ncols A =? 1)%nat then 0 else j)
                            + iget B (if (nrows B =? 1)%nat then 0 else i)
                                     (if (ncols B =? 1)%nat then 0 else j))%Z)
                        (seq 0 m))
                 (seq 0 n)))
  | _, _ => Raise ValueError
  end.

(** [A[A > 1] = v] *)
Definition set_where_gt1 (v : Z) (A : imatrix) : imatrix :=
  mkArray2 (nrows A) (ncols A)
    (map (map (fun a => if (1 <? a)%Z then v else a)) (rows A)).

(** The undirected adjacency matrix, from the matrix [A] that
    [np.random.randint(2, size=(n, n))] returned:
    [np.fill_diagonal(A, 1); A_und = (A + A.T); A_und[A_und > 1] = 1]. *)
Definition A_und_of (A : imatrix) : result imatrix :=
  let A := fill_diagonal A 1 in
  A_und <- iadd A (itranspose A) ;;
  Ok (set_where_gt1 1 A_und).

(** The adjacency matrix of relation 2, from the matrix [A_rel2] that
    [np.random.randint(3, size=(n, n))] returned:
    [np.fill_diagonal(A_rel2, 0); A_rel2[A_rel2 > 1] = 0]. *)
Definition A_rel2_of (A_rel2 : imatrix) : imatrix :=
  set_where_gt1 0 (fill_diagonal A_rel2 0).

(** [np.concatenate(Ms)] along axis 0: needs one array at least, and the
    same number of columns in all of them. *)
Definition concatenate_axis0 {T : Type} (Ms : list (array2 T)) : result (array2 T) :=
  match Ms with
  | [] => Raise ValueError
  | M0 :: rest =>
      if forallb (fun M => (ncols M =? ncols M0)%nat) rest
      then Ok (mkArray2 (list_sum (map (@nrows T) Ms)) (ncols M0)
                        (flat_map (@rows T) Ms))
      else Raise ValueError
  end.

(** [cnt] consecutive pieces of [k] elements. *)
Fixpoint chunks {T : Type} (k cnt : nat) (l : list T) : list (list T) :=
  match cnt with
  | O => []
  | S c => firstn k l :: chunks k c (skipn k l)
  end.

(** [np.reshape(M, (r, n, m))]: the entries in row-major order, cut into
    [r] slices of [n] rows of [m] entries; the sizes must agree. *)
Definition reshape3 {T : Type} (r n m : nat) (M : array2 T) : result (list (array2 T)) :=
  if (nrows M * ncols M =? r * n * m)%nat
  then Ok (map (mkArray2 n m) (chunks n r (chunks m (r * n) (concat (rows M)))))
  else Raise ValueError.

(** [W_rels = np.reshape(np.concatenate((W_rel1, W_rel2)), (num_rels, n, emb))]
    with [num_rels = 2]; [A_rels] is built the same way. *)
Definition rels_of {T : Type} (n m : nat) (M_rel1 M_rel2 : array2 T)
  : result (list (array2 T)) :=
  M_rels <- concatenate_axis0 [M_rel1; M_rel2] ;;
  reshape3 2 n m M_rels.

(** Cell 5 of rgcn.ipynb in a row, from the two weight matrices and the
    two adjacency matrices. *)
Definition RGCN_cell (n emb : nat) (X W_rel1 W_rel2 : matrix) (A_rel1 A_rel2 : imatrix)
  : result matrix :=
  W_rels <- rels_of n emb W_rel1 W_rel2 ;;
  A_rels <- rels_of n n A_rel1 A_rel2 ;;
  RGCN_of A_rels X W_rels.

(** The permutation the notebooks' run drew: row [i] of [X] is the
    one-hot vector of [perm_notebook[i]]. *)
Definition perm_notebook : list nat := [2; 1; 4; 0; 3]%nat.

(** The adjacency matrix both notebooks print. *)
Definition A_notebook : imatrix :=
  mkArray2 5 5 [[1; 1; 1; 0; 1]; [1; 1; 1; 1; 1]; [1; 1; 1; 1; 0];
                [0; 1; 1; 1; 1]; [1; 1; 0; 1; 1]]%Z.

(** A draw of [np.random.randint(3, size=(5, 5))]. *)
Definition A_rel2_draw : imatrix :=
  mkArray2 5 5 [[2; 1; 0; 1; 2]; [0; 1; 2; 0; 1]; [1; 2; 2; 0; 0];
                [0; 0; 1; 0; 2]; [2; 1; 1; 0; 1]]%Z.

(* ================================================================== *)
(** * Properties *)

(** Solves [has_shape n m M] on a literal array. *)
Ltac shape_tac :=
  split; [split; [reflexivity | repeat (apply Forall_cons || apply Forall_nil); reflexivity]
         | split; reflexivity].

(* ------------------------------------------------------------------ *)
(** ** Lists *)

Lemma map2_length {A B C : Type} (f : A -> B -> C) (u : list A) (v : list B) :
  length (map2 f u v) = Nat.min (length u) (length v).
Proof.
  revert v; induction u as [|a u IH]; intros [|b v]; simpl; auto.
Qed.

Lemma map2_nth {A B C : Type} (f : A -> B -> C) (u : list A) (v : list B)
      (i : nat) (da : A) (db : B) (dc : C) :
  (i < length u)%nat -> (i < length v)%nat ->
  nth i (map2 f u v) dc = f (nth i u da) (nth i v db).
Proof.
  revert v i; induction u as [|a u IH]; intros [|b v] [|i]; simpl; intros; try lia; auto.
  apply IH; lia.
Qed.

Lemma nth_ext_len {A : Type} (d : A) (u v : list A) :
  length u = length v ->
  (forall i, (i < length u)%nat -> nth i u d = nth i v d) -> u = v.
Proof.
  intros Hl H. apply nth_ext with (d := d) (d' := d); auto.
Qed.

Lemma nth_map_seq {A : Type} (f : nat -> A) (n j : nat) (d : A) :
  (j < n)%nat -> nth j (map f (seq 0 n)) d = f j.
Proof.
  intros Hj. rewrite nth_indep with (d' := f 0%nat) by (rewrite length_map, length_seq; lia).
  rewrite map_nth, seq_nth by lia. reflexivity.
Qed.

Lemma sequence_map_ok {A B : Type} (f : A -> result B) (g : A -> B) (l : list A) :
  (forall x, In x l -> f x = Ok (g x)) ->
  sequence (map f l) = Ok (map g l).
Proof.
  induction l as [|x l IH]; simpl; intros H; auto.
  rewrite (H x) by auto. simpl. rewrite IH by auto. reflexivity.
Qed.

(* ------------------------------------------------------------------ *)
(** ** Sums, maxima and exponentials *)

Lemma fold_left_Rplus_acc (l : list R) (a : R) :
  fold_left Rplus l a = a + Rsum l.
Proof.
  revert a; induction l as [|x l IH]; intros a; simpl.
  - lra.
  - rewrite IH. unfold Rsum. lra.
Qed.

Lemma py_sum_Rsum (l : list R) : py_sum l = Rsum l.
Proof. unfold py_sum. rewrite fold_left_Rplus_acc. lra. Qed.

Lemma Rsum_app (u v : list R) : Rsum (u ++ v) = Rsum u + Rsum v.
Proof. induction u as [|x u IH]; simpl; [lra | rewrite IH; lra]. Qed.

Lemma Rsum_div (l : list R) (s : R) :
  Rsum (map (fun x => x / s) l) = Rsum l / s.
Proof.
  induction l as [|x l IH]; simpl.
  - unfold Rdiv. lra.
  - rewrite IH. unfold Rdiv. lra.
Qed.

Lemma Rsum_exp_pos (f : R -> R) (l : list R) :
  l <> [] -> 0 < Rsum (map (fun x => exp (f x)) l).
Proof.
  destruct l as [|x l]; [congruence | intros _].
  simpl. assert (H : 0 <= Rsum (map (fun y => exp (f y)) l)).
  { induction l as [|y l IH]; simpl; [lra |].
    pose proof (exp_pos (f y)). lra. }
  pose proof (exp_pos (f x)). lra.
Qed.

Lemma fold_left_Rmax_shift (l : list R) (x c : R) :
  fold_left Rmax (map (fun y => y + c) l) (x + c) = fold_left Rmax l x + c.
Proof.
  revert x; induction l as [|y l IH]; intros x; simpl; auto.
  rewrite <- IH. f_equal.
  unfold Rmax. destruct (Rle_dec (x + c) (y + c)), (Rle_dec x y); lra.
Qed.

Lemma fold_left_Rmax_ge (l : list R) (x : R) :
  x <= fold_left Rmax l x /\ Forall (fun y => y <= fold_left Rmax l x) l.
Proof.
  revert x; induction l as [|y l IH]; intros x; simpl.
  - split; [lra | constructor].
  - destruct (IH (Rmax x y)) as [H1 H2].
    pose proof (Rmax_l x y). pose proof (Rmax_r x y).
    split; [lra |]. constructor; [lra | exact H2].
Qed.

Lemma fold_left_Rmax_in (l : list R) (x : R) :
  In (fold_left Rmax l x) (x :: l).
Proof.
  revert x; induction l as [|y l IH]; intros x; simpl; auto.
  destruct (IH (Rmax x y)) as [H | H].
  - unfold Rmax in H at 1. destruct (Rle_dec x y); auto.
  - auto.
Qed.

Lemma np_max_is_max (x : R) (l : list R) :
  is_max (fold_left Rmax l x) (x :: l).
Proof.
  split.
  - apply fold_left_Rmax_in.
  - destruct (fold_left_Rmax_ge l x). constructor; auto.
Qed.

(* ------------------------------------------------------------------ *)
(** ** softmax *)

Lemma softmax_vec_cons (x : R) (l : list R) :
  softmax_vec (x :: l) = Ok (softmax_entries (fold_left Rmax l x) (x :: l)).
Proof.
  unfold softmax_vec, softmax_entries. cbn [np_max bind].
  rewrite py_sum_Rsum. rewrite map_map. reflexivity.
Qed.

Lemma softmax_entries_sum (mx : R) (v : list R) :
  v <> [] -> Rsum (softmax_entries mx v) = 1.
Proof.
  intros Hv. unfold softmax_entries.
  rewrite <- (map_map (fun x => exp (x - mx)) (fun e => e / _)).
  rewrite Rsum_div. apply Rdiv_diag.
  pose proof (Rsum_exp_pos (fun y => y - mx) Hv). lra.
Qed.

Lemma softmax_entries_length (mx : R) (v : list R) :
  length (softmax_entries mx v) = length v.
Proof. unfold softmax_entries. apply length_map. Qed.

Lemma softmax_vec_nonempty (v : list R) :
  v <> [] ->
  exists mx, is_max mx v /\ softmax_vec v = Ok (softmax_entries mx v).
Proof.
  destruct v as [|x l]; [congruence | intros _].
  exists (fold_left Rmax l x). split.
  - apply np_max_is_max.
  - apply softmax_vec_cons.
Qed.

Lemma softmax_vec_empty : softmax_vec [] = Raise ValueError.
Proof. reflexivity. Qed.

Lemma softmax_vec_shift (v : list R) (c : R) :
  softmax_vec (map (fun x => x + c) v) = softmax_vec v.
Proof.
  destruct v as [|x l]; [reflexivity |].
  cbn [map]. rewrite !softmax_vec_cons. f_equal.
  rewrite fold_left_Rmax_shift.
  unfold softmax_entries.
  change (x + c :: map (fun y => y + c) l) with (map (fun y => y + c) (x :: l)).
  rewrite !map_map.
  assert (E : forall y, exp (y + c - (fold_left Rmax l x + c))
                        = exp (y - fold_left Rmax l x)).
  { intros y. f_equal. lra. }
  erewrite (map_ext (fun y => exp (y + c - _))) by apply E.
  apply map_ext. intros y. rewrite E. reflexivity.
Qed.

Lemma column_nonempty (z : matrix) (j : nat) :
  wf z -> (0 < nrows z)%nat -> column 0 z j <> [].
Proof.
  intros [Hl _] Hn. unfold column.
  destruct (rows z) as [|r l]; simpl in *; [lia | discriminate].
Qed.

Lemma np_max_nonempty (v : list R) : v <> [] -> np_max v = Ok (max_of v).
Proof. destruct v; [congruence | reflexivity]. Qed.

Lemma softmax_vec_max_of (v : list R) :
  v <> [] -> softmax_vec v = Ok (softmax_entries (max_of v) v).
Proof. destruct v; [congruence | intros _; apply softmax_vec_cons]. Qed.

Lemma np_max_axis0_ok (z : matrix) :
  wf z -> (0 < nrows z)%nat ->
  np_max_axis0 z = Ok (map (fun j => max_of (column 0 z j)) (seq 0 (ncols z))).
Proof.
  intros Hwf Hn. unfold np_max_axis0.
  destruct (Nat.eqb_spec (nrows z) 0); [lia |].
  apply sequence_map_ok. intros j _.
  apply np_max_nonempty. apply column_nonempty; assumption.
Qed.

(** The matrix branch, column by column, is the vector branch. *)
Lemma softmax_mat_columns (z : matrix) :
  wf z -> (0 < nrows z)%nat ->
  exists a, softmax_mat z = Ok a /\ wf a /\
            nrows a = nrows z /\ ncols a = ncols z /\
            forall j, (j < ncols z)%nat ->
                      softmax_vec (column 0 z j) = Ok (column 0 a j).
Proof.
  intros Hwf Hn. unfold softmax_mat.
  rewrite np_max_axis0_ok by assumption. cbn [bind].
  eexists. split; [reflexivity |].
  set (mxs := map (fun j => max_of (column 0 z j)) (seq 0 (ncols z))).
  assert (Hmxs : length mxs = ncols z).
  { unfold mxs. rewrite length_map, length_seq. reflexivity. }
  set (e := mkArray2 (nrows z) (ncols z)
                     (map (map exp) (map (fun r => map2 Rminus r mxs) (rows z)))).
  assert (Hs : length (np_sum_axis0 e) = ncols z).
  { unfold np_sum_axis0. rewrite length_map, length_seq. reflexivity. }
  assert (Hre : rows e = map (fun r => map exp (map2 Rminus r mxs)) (rows z)).
  { unfold e; cbn [rows]. apply map_map. }
  destruct Hwf as [Hlen Hrows].
  assert (Hnth : forall j r, (j < ncols z)%nat -> length r = ncols z ->
             nth j (map exp (map2 Rminus r mxs)) 0
             = exp (nth j r 0 - max_of (column 0 z j))).
  { intros j r Hj Hr. rewrite nth_indep with (d' := exp 0)
      by (rewrite length_map, map2_length, Hmxs, Hr; lia).
    rewrite map_nth.
    rewrite (map2_nth Rminus _ _ 0 0 0) by (rewrite ?Hmxs, ?Hr; lia).
    unfold mxs. rewrite nth_map_seq by lia. reflexivity. }
  split; [| split; [reflexivity | split; [reflexivity |]]].
  - split; cbn [rows nrows ncols].
    + rewrite Hre, !length_map. exact Hlen.
    + rewrite Hre, map_map.
      apply Forall_map. eapply Forall_impl; [| exact Hrows].
      intros r Hr. cbn beta in *.
      rewrite map2_length, length_map, map2_length, Hs, Hmxs, Hr. lia.
  - intros j Hj.
    rewrite softmax_vec_max_of by (apply column_nonempty; [split |]; assumption).
    f_equal. unfold softmax_entries.
    assert (Hsum : nth j (np_sum_axis0 e) 0
                   = Rsum (map (fun y => exp (y - max_of (column 0 z j))) (column 0 z j))).
    { unfold np_sum_axis0. rewrite nth_map_seq by (cbn [ncols e]; lia).
      f_equal. unfold column at 1 3. rewrite Hre, !map_map.
      apply map_ext_in. intros r Hr. apply Hnth; [assumption |].
      rewrite Forall_forall in Hrows. apply Hrows. exact Hr. }
    rewrite <- Hsum.
    unfold column in *. cbn [rows]. rewrite ?Hre, !map_map.
    apply map_ext_in. intros r Hr.
    rewrite Forall_forall in Hrows. pose proof (Hrows r Hr) as Hrl.
    rewrite (map2_nth Rdiv _ _ 0 0 0)
      by (rewrite ?length_map, ?map2_length, ?Hs, ?Hmxs, ?Hrl; lia).
    rewrite Hnth by assumption. reflexivity.
Qed.

Lemma softmax_singleton (x : R) : softmax (Vec [x]) = Ok (Vec [1]).
Proof.
  cbn [softmax]. rewrite softmax_vec_cons. cbn [bind fold_left].
  do 2 f_equal. unfold softmax_entries. cbn [map Rsum fold_right].
  replace (x - x) with 0 by lra. rewrite exp_0.
  f_equal. field.
Qed.

(** C8.  On a non-empty vector [softmax] returns a vector of the same
    length whose entries are [exp (x - mx) / sum] for the maximum [mx]
    of the input, and which sums to 1.  On a matrix with at least one
    row it returns a matrix of the same shape whose columns are the
    softmax of the input's columns, each summing to 1.  On a single
    element the result is exactly [1]. *)
Theorem C8_softmax_shape_and_normalization :
  (forall v, v <> [] ->
     exists mx a,
       is_max mx v /\ softmax (Vec v) = Ok (Vec a) /\
       a = softmax_entries mx v /\ length a = length v /\ Rsum a = 1)
  /\
  (forall z, wf z -> (0 < nrows z)%nat ->
     exists a,
       softmax (Mat z) = Ok (Mat a) /\
       wf a /\ nrows a = nrows z /\ ncols a = ncols z /\
       forall j, (j < ncols z)%nat ->
         softmax (Vec (column 0 z j)) = Ok (Vec (column 0 a j)) /\
         Rsum (column 0 a j) = 1)
  /\
  (forall x, softmax (Vec [x]) = Ok (Vec [1])).
Proof.
  split; [| split].
  - intros v Hv. destruct (softmax_vec_nonempty Hv) as [mx [Hmx E]].
    exists mx, (softmax_entries mx v). cbn [softmax]. rewrite E. cbn [bind].
    repeat split; try apply Hmx.
    + apply softmax_entries_length.
    + apply softmax_entries_sum; assumption.
  - intros z Hwf Hn.
    destruct (softmax_mat_columns Hwf Hn) as [a [E [Hwa [Hr [Hc Hcol]]]]].
    exists a. cbn [softmax]. rewrite E. cbn [bind].
    repeat split; try assumption; try apply Hwa.
    + rewrite (Hcol j) by assumption. reflexivity.
    + specialize (Hcol j H).
      rewrite softmax_vec_max_of in Hcol by (apply column_nonempty; assumption).
      injection Hcol as Hcol. rewrite <- Hcol.
      apply softmax_entries_sum. apply column_nonempty; assumption.
  - apply softmax_singleton.
Qed.

Lemma C8_softmax_witness :
  (exists mx a,
     is_max mx [1; 3; 2] /\ softmax (Vec [1; 3; 2]) = Ok (Vec a) /\
     a = softmax_entries mx [1; 3; 2] /\ length a = 3%nat /\ Rsum a = 1)
  /\
  (exists a,
     softmax (Mat (mkArray2 2 1 [[1]; [4]])) = Ok (Mat a) /\
     wf a /\ nrows a = 2%nat /\ ncols a = 1%nat /\
     forall j, (j < 1)%nat ->
       softmax (Vec (column 0 (mkArray2 2 1 [[1]; [4]]) j)) = Ok (Vec (column 0 a j)) /\
       Rsum (column 0 a j) = 1).
Proof.
  split.
  - apply (proj1 C8_softmax_shape_and_normalization [1; 3; 2]). discriminate.
  - apply (proj1 (proj2 C8_softmax_shape_and_normalization) (mkArray2 2 1 [[1]; [4]])).
    + split; [reflexivity | repeat constructor].
    + simpl. lia.
Defined.

(** C9.  [softmax] is shift-invariant: on a non-empty vector, adding a
    constant [c] to every element does not change the result. *)
Theorem C9_softmax_shift_invariant (v : list R) (c : R) :
  v <> [] ->
  exists a,
    softmax (Vec v) = Ok (Vec a) /\
    softmax (Vec (map (fun x => x + c) v)) = Ok (Vec a).
Proof.
  intros Hv. cbn [softmax]. rewrite softmax_vec_shift.
  rewrite softmax_vec_max_of by assumption. cbn [bind].
  eexists. split; reflexivity.
Qed.

Lemma C9_softmax_shift_witness :
  exists a,
    softmax (Vec [1; 2]) = Ok (Vec a) /\
    softmax (Vec (map (fun x => x + 1000) [1; 2])) = Ok (Vec a).
Proof.
  apply (@C9_softmax_shift_invariant [1; 2] 1000). discriminate.
Defined.

(* ------------------------------------------------------------------ *)
(** ** Vectors and [dot] *)

Lemma vzero_length (m : nat) : length (vzero m) = m.
Proof. apply repeat_length. Qed.

Lemma vadd_length (u v : list R) (m : nat) :
  length u = m -> length v = m -> length (vadd u v) = m.
Proof. intros Hu Hv. unfold vadd. rewrite map2_length. lia. Qed.

Lemma vscale_length (a : R) (v : list R) : length (vscale a v) = length v.
Proof. apply length_map. Qed.

Lemma vsum_length (m : nat) (l : list (list R)) :
  Forall (fun r => length r = m) l -> length (vsum m l) = m.
Proof.
  induction 1 as [|r l Hr _ IH]; simpl.
  - apply vzero_length.
  - apply vadd_length; assumption.
Qed.

Lemma vadd_zero_l (v : list R) : vadd (vzero (length v)) v = v.
Proof.
  induction v as [|x v IH]; [reflexivity |].
  cbn. f_equal; [lra | exact IH].
Qed.

Lemma vscale_zero (v : list R) : vscale 0 v = vzero (length v).
Proof.
  induction v as [|x v IH]; [reflexivity |].
  cbn. f_equal; [lra | exact IH].
Qed.

Lemma vscale_one (v : list R) : vscale 1 v = v.
Proof.
  induction v as [|x v IH]; [reflexivity |].
  cbn. f_equal; [lra | exact IH].
Qed.

Lemma vzero_nth (m j : nat) : nth j (vzero m) 0 = 0.
Proof.
  unfold vzero. destruct (Nat.lt_ge_cases j m).
  - apply nth_repeat_lt; assumption.
  - apply nth_overflow. rewrite repeat_length. assumption.
Qed.

Lemma vadd_nth (u v : list R) (j : nat) :
  length u = length v -> nth j (vadd u v) 0 = nth j u 0 + nth j v 0.
Proof.
  intros H. destruct (Nat.lt_ge_cases j (length u)).
  - unfold vadd. apply map2_nth; lia.
  - rewrite !nth_overflow; try lia; [lra |].
    unfold vadd. rewrite map2_length. lia.
Qed.

Lemma vsum_nth (m : nat) (l : list (list R)) (j : nat) :
  Forall (fun r => length r = m) l ->
  nth j (vsum m l) 0 = Rsum (map (fun r => nth j r 0) l).
Proof.
  induction 1 as [|r l Hr Hl IH]; simpl.
  - apply vzero_nth.
  - rewrite vadd_nth, IH; [reflexivity |].
    rewrite Hr. symmetry. apply vsum_length. assumption.
Qed.

Lemma map2_Forall {A B C : Type} (P : C -> Prop) (Q : B -> Prop)
      (f : A -> B -> C) (u : list A) (v : list B) :
  (forall a b, Q b -> P (f a b)) -> Forall Q v -> Forall P (map2 f u v).
Proof.
  intros Hf Hv. revert u; induction Hv as [|b v Hb Hv IH]; intros [|a u]; simpl;
    constructor; auto.
Qed.

Lemma vecmat_length (m : nat) (u : list R) (B : list (list R)) :
  Forall (fun r => length r = m) B -> length (vecmat m u B) = m.
Proof.
  intros HB. unfold vecmat. apply vsum_length.
  apply map2_Forall with (Q := fun r => length r = m); [| assumption].
  intros a b Hb. rewrite vscale_length. assumption.
Qed.

Lemma map_map2 {A B C D : Type} (g : C -> D) (f : A -> B -> C)
      (u : list A) (v : list B) :
  map g (map2 f u v) = map2 (fun a b => g (f a b)) u v.
Proof.
  revert v; induction u as [|a u IH]; intros [|b v]; simpl; auto.
  rewrite IH. reflexivity.
Qed.

Lemma map2_map_r {A B B' C : Type} (f : A -> B -> C) (h : B' -> B)
      (u : list A) (v : list B') :
  map2 f u (map h v) = map2 (fun a b => f a (h b)) u v.
Proof.
  revert v; induction u as [|a u IH]; intros [|b v]; simpl; auto.
  rewrite IH. reflexivity.
Qed.

Lemma map2_ext_in {A B C : Type} (f g : A -> B -> C) (u : list A) (v : list B) :
  (forall a b, In b v -> f a b = g a b) -> map2 f u v = map2 g u v.
Proof.
  revert v; induction u as [|a u IH]; intros [|b v] H; simpl; auto.
  rewrite H by (left; reflexivity). rewrite IH; [reflexivity |].
  intros; apply H; right; assumption.
Qed.

Lemma vscale_nth (a : R) (v : list R) (j : nat) :
  nth j (vscale a v) 0 = a * nth j v 0.
Proof.
  unfold vscale. destruct (Nat.lt_ge_cases j (length v)).
  - rewrite nth_indep with (d' := a * 0) by (rewrite length_map; assumption).
    apply map_nth.
  - rewrite !nth_overflow; rewrite ?length_map; try assumption. lra.
Qed.

(** Entry [j] of [u . B] is the dot product of [u] with column [j]. *)
Lemma vecmat_nth (m : nat) (u : list R) (B : list (list R)) (j : nat) :
  Forall (fun r => length r = m) B ->
  nth j (vecmat m u B) 0 = Rsum (map2 Rmult u (map (fun r => nth j r 0) B)).
Proof.
  intros HB. unfold vecmat. rewrite vsum_nth.
  - rewrite map_map2, map2_map_r. f_equal.
    apply map2_ext_in. intros a b _. apply vscale_nth.
  - apply map2_Forall with (Q := fun r => length r = m); [| assumption].
    intros a b Hb. rewrite vscale_length. assumption.
Qed.

Lemma dot_ok (A B : matrix) :
  wf A -> wf B -> ncols A = nrows B ->
  exists M, dot A B = Ok M /\ has_shape (nrows A) (ncols B) M /\
            rows M = map (fun u => vecmat (ncols B) u (rows B)) (rows A).
Proof.
  intros [HA _] [_ HB] E. unfold dot. rewrite E, Nat.eqb_refl.
  eexists. split; [reflexivity |].
  split; [| reflexivity].
  split; [| split; reflexivity]. split; cbn [rows nrows ncols].
  - rewrite length_map. assumption.
  - apply Forall_map. apply Forall_forall. intros u _.
    apply vecmat_length. assumption.
Qed.

Lemma dot_mismatch (A B : matrix) :
  ncols A <> nrows B -> dot A B = Raise ValueError.
Proof.
  intros H. unfold dot. destruct (Nat.eqb_spec (ncols A) (nrows B)); congruence.
Qed.

Lemma row_length {T : Type} (M : array2 T) (i : nat) :
  wf M -> (i < nrows M)%nat -> length (row M i) = ncols M.
Proof.
  intros [Hl Hr] Hi. rewrite Forall_forall in Hr. apply Hr.
  unfold row. apply nth_In. lia.
Qed.

Lemma transpose_wf (M : matrix) : wf M -> wf (transpose M).
Proof.
  intros [Hl _]. split; cbn [rows nrows ncols transpose].
  - rewrite length_map, length_seq. reflexivity.
  - apply Forall_map. apply Forall_forall. intros j _.
    unfold column. rewrite length_map. assumption.
Qed.

Lemma nth_map_lt {A B : Type} (f : A -> B) (l : list A) (i : nat) (d : A) (d' : B) :
  (i < length l)%nat -> nth i (map f l) d' = f (nth i l d).
Proof.
  intros Hi. rewrite nth_indep with (d' := f d) by (rewrite length_map; assumption).
  apply map_nth.
Qed.

Lemma map_nth_seq {A : Type} (l : list A) (d : A) :
  map (fun k => nth k l d) (seq 0 (length l)) = l.
Proof.
  apply nth_ext_len with (d := d).
  - rewrite length_map, length_seq. reflexivity.
  - intros i Hi. rewrite length_map, length_seq in Hi.
    rewrite nth_map_seq by assumption. reflexivity.
Qed.

Lemma map2_as_seq {A B C : Type} (f : A -> B -> C) (u : list A) (v : list B)
      (da : A) (db : B) :
  length u = length v ->
  map2 f u v = map (fun k => f (nth k u da) (nth k v db)) (seq 0 (length u)).
Proof.
  intros H. assert (dc : C).
  { destruct u as [|a u]; destruct v as [|b v]; try discriminate.
    - exact (f da db).
    - exact (f a b). }
  apply nth_ext_len with (d := dc).
  - rewrite map2_length, length_map, length_seq. lia.
  - intros i Hi. rewrite map2_length in Hi.
    rewrite nth_map_seq by lia. apply map2_nth; lia.
Qed.

(** Column [j] of [M.T] is row [j] of [M]. *)
Lemma transpose_column (M : matrix) (j : nat) :
  wf M -> (j < nrows M)%nat ->
  map (fun r => nth j r 0) (rows (transpose M)) = row M j.
Proof.
  intros Hwf Hj. cbn [transpose rows]. rewrite map_map.
  transitivity (map (fun k => nth k (row M j) 0) (seq 0 (length (row M j))));
    [| apply map_nth_seq].
  rewrite (row_length Hwf Hj).
  apply map_ext. intros k. unfold column, row.
  apply (nth_map_lt (fun r => nth k r 0)). destruct Hwf. lia.
Qed.

Lemma get_dot (A B M : matrix) (i j : nat) :
  wf A -> wf B -> dot A B = Ok M -> (i < nrows A)%nat ->
  get M i j = Rsum (map2 Rmult (row A i) (column 0 B j)).
Proof.
  intros HA HB E Hi.
  unfold dot in E. destruct (ncols A =? nrows B)%nat; [| discriminate].
  injection E as E. subst M. unfold get, row at 1. cbn [rows].
  rewrite nth_map_lt with (d := []) by (destruct HA; lia).
  apply vecmat_nth. apply HB.
Qed.

(** C6 (amended).  [z1 = X.dot(W.T)] takes the weights as [E] rows of
    [F] columns: for features of [N] rows and [F] columns the result has
    [N] rows and [E] columns, and entry [(i, j)] is the dot product of
    feature row [i] with weight row [j].  [np.matmul(X, W_rels)] takes
    every relation's weights as [F] rows of [E] columns and does not
    transpose: slice [r] has [N] rows and [E] columns and is
    [X.dot(W_rels[r])]. *)
Theorem C6_projection_shapes :
  (forall N F E X W,
     has_shape N F X -> has_shape E F W ->
     exists z1,
       z1_of X W = Ok z1 /\ has_shape N E z1 /\
       forall i j, (i < N)%nat -> (j < E)%nat ->
         get z1 i j = Rsum (map2 Rmult (row X i) (row W j)))
  /\
  (forall N F E X W_rels,
     has_shape N F X -> Forall (has_shape F E) W_rels ->
     exists L_0_rels,
       matmul_2d_3d X W_rels = Ok L_0_rels /\
       length L_0_rels = length W_rels /\
       Forall (has_shape N E) L_0_rels /\
       forall r, (r < length W_rels)%nat ->
         L_0_of X (nth r W_rels (zeros 0 0)) = Ok (nth r L_0_rels (zeros 0 0)) /\
         forall i j, (i < N)%nat ->
           get (nth r L_0_rels (zeros 0 0)) i j
           = Rsum (map2 Rmult (row X i) (column 0 (nth r W_rels (zeros 0 0)) j))).
Proof.
  split.
  - intros N F E X W [HX [HXn HXf]] [HW [HWe HWf]].
    destruct (@dot_ok X (transpose W)) as [z1 [Ez [Hz _]]];
      [assumption | apply transpose_wf; assumption | cbn; congruence |].
    exists z1. unfold z1_of. split; [exact Ez |].
    cbn [transpose nrows ncols] in Hz. rewrite HXn, HWe in Hz.
    split; [exact Hz |].
    intros i j Hi Hj.
    rewrite (@get_dot X (transpose W) z1 i j HX (transpose_wf HW) Ez) by lia.
    unfold column. rewrite transpose_column by (assumption || lia). reflexivity.
  - intros N F E X W_rels [HX [HXn HXf]] HW.
    unfold matmul_2d_3d.
    induction HW as [|W l [HWwf [HWf HWe]] Hl IH].
    + exists []. cbn. repeat split; auto; intros; lia.
    + destruct IH as [L [EL [Hlen [Hall Hnth]]]].
      destruct (@dot_ok X W) as [M [EM [HM _]]]; [assumption | assumption | congruence |].
      exists (M :: L). cbn [map sequence]. rewrite EM. cbn [bind]. rewrite EL. cbn [bind].
      split; [reflexivity |]. split; [cbn; congruence |].
      split.
      * constructor; [| assumption]. rewrite HXn, HWe in HM. exact HM.
      * intros [|r] Hr; cbn [nth].
        -- split; [exact EM |]. intros i j Hi.
           apply (@get_dot X W M i j HX HWwf EM). lia.
        -- apply Hnth. cbn in Hr. lia.
Qed.

Lemma C6_projection_witness :
  (exists z1,
     z1_of (mkArray2 1 2 [[1; 2]]) (mkArray2 1 2 [[3; 4]]) = Ok z1 /\
     has_shape 1 1 z1 /\
     forall i j, (i < 1)%nat -> (j < 1)%nat ->
       get z1 i j = Rsum (map2 Rmult (row (mkArray2 1 2 [[1; 2]]) i)
                                     (row (mkArray2 1 2 [[3; 4]]) j)))
  /\
  (let X := mkArray2 1 2 [[1; 2]] in
   let W_rels := [mkArray2 2 1 [[3]; [4]]; mkArray2 2 1 [[5]; [6]]] in
   exists L_0_rels,
     matmul_2d_3d X W_rels = Ok L_0_rels /\
     length L_0_rels = length W_rels /\
     Forall (has_shape 1 1) L_0_rels /\
     forall r, (r < length W_rels)%nat ->
       L_0_of X (nth r W_rels (zeros 0 0)) = Ok (nth r L_0_rels (zeros 0 0)) /\
       forall i j, (i < 1)%nat ->
         get (nth r L_0_rels (zeros 0 0)) i j
         = Rsum (map2 Rmult (row X i) (column 0 (nth r W_rels (zeros 0 0)) j))).
Proof.
  split.
  - apply (proj1 C6_projection_shapes 1%nat 2%nat 1%nat).
    + shape_tac.
    + shape_tac.
  - apply (proj2 C6_projection_shapes 1%nat 2%nat 1%nat).
    + shape_tac.
    + repeat (apply Forall_cons || apply Forall_nil);
        (shape_tac).
Defined.

(** C6, as stated, fails: with the weights given as [F] rows of [E]
    columns ([F = 2], [E = 1]) the product [X.dot(W.T)] raises. *)
Lemma C6_projection_counterexample :
  has_shape 1 2 (mkArray2 1 2 [[1; 2]]) /\
  has_shape 2 1 (mkArray2 2 1 [[3]; [4]]) /\
  z1_of (mkArray2 1 2 [[1; 2]]) (mkArray2 2 1 [[3]; [4]]) = Raise ValueError.
Proof.
  split; [| split].
  - shape_tac.
  - shape_tac.
  - reflexivity.
Qed.

Lemma astype_float_wf (A : imatrix) : wf A -> wf (astype_float A).
Proof.
  intros [Hl Hr]. split; cbn [astype_float rows nrows ncols].
  - rewrite length_map. assumption.
  - apply Forall_map. eapply Forall_impl; [| exact Hr].
    intros r E. cbn beta. rewrite length_map. assumption.
Qed.

Lemma RGCN_single (A : imatrix) (X W : matrix) :
  RGCN_of [A] X [W] = GNN_layer A X W.
Proof.
  unfold RGCN_of, GNN_layer, L_0_of, ND_GNN_of, matmul_2d_3d.
  cbn [map sequence].
  destruct (dot X W) as [L_0 | e]; cbn [bind]; [| reflexivity].
  unfold matmul_3d_3d. cbn [length Nat.eqb map2 sequence].
  destruct (dot (astype_float A) L_0) as [G | e]; cbn [bind]; reflexivity.
Qed.

(** C7.  With one relation, [RGCN] is the plain uniform aggregation
    [A.dot(X.dot(W))] on the same adjacency and weights: the same
    output, and the same exception when the shapes do not fit.  When
    they fit, both return a matrix of [n] rows and [E] columns whose
    entry [(i, j)] is [sum_k A[i][k] * (X . W)[k][j]]. *)
Theorem C7_rgcn_single_relation :
  (forall A X W, RGCN_of [A] X [W] = GNN_layer A X W)
  /\
  (forall n F E A X W,
     has_shape n n A -> has_shape n F X -> has_shape F E W ->
     exists L_0 out,
       L_0_of X W = Ok L_0 /\
       RGCN_of [A] X [W] = Ok out /\ GNN_layer A X W = Ok out /\
       has_shape n E out /\
       forall i j, (i < n)%nat ->
         get out i j = Rsum (map2 Rmult (map IZR (row A i)) (column 0 L_0 j))).
Proof.
  split; [exact RGCN_single |].
  intros n F E A X W [HA [HAn HAm]] [HX [HXn HXf]] [HW [HWf HWe]].
  destruct (@dot_ok X W) as [L_0 [EL [[HL [HLn HLm]] _]]];
    [assumption | assumption | congruence |].
  destruct (@dot_ok (astype_float A) L_0) as [out [Eo [Ho _]]];
    [apply astype_float_wf; assumption | assumption | cbn; congruence |].
  exists L_0, out. split; [exact EL |].
  assert (EG : GNN_layer A X W = Ok out).
  { unfold GNN_layer, L_0_of, ND_GNN_of. rewrite EL. exact Eo. }
  split; [rewrite RGCN_single; exact EG |]. split; [exact EG |].
  cbn [astype_float nrows] in Ho. rewrite HAn, HLm, HWe in Ho.
  split; [exact Ho |].
  intros i j Hi.
  rewrite (@get_dot (astype_float A) L_0 out i j (astype_float_wf HA) HL Eo)
    by (cbn; lia).
  f_equal. f_equal. unfold row. cbn [astype_float rows].
  apply nth_map_lt. destruct HA. lia.
Qed.

Lemma C7_rgcn_witness :
  exists L_0 out,
    L_0_of X_onehot (mkArray2 5 1 [[1]; [2]; [3]; [4]; [5]]) = Ok L_0 /\
    RGCN_of [A_cycle] X_onehot [mkArray2 5 1 [[1]; [2]; [3]; [4]; [5]]] = Ok out /\
    GNN_layer A_cycle X_onehot (mkArray2 5 1 [[1]; [2]; [3]; [4]; [5]]) = Ok out /\
    has_shape 5 1 out /\
    forall i j, (i < 5)%nat ->
      get out i j = Rsum (map2 Rmult (map IZR (row A_cycle i)) (column 0 L_0 j)).
Proof.
  apply (proj2 C7_rgcn_single_relation 5%nat 5%nat 1%nat).
  - shape_tac.
  - shape_tac.
  - shape_tac.
Defined.

(* ------------------------------------------------------------------ *)
(** ** Sums over index sets *)

Lemma vadd_zero_r (v : list R) : vadd v (vzero (length v)) = v.
Proof.
  induction v as [|x v IH]; [reflexivity |].
  cbn. f_equal; [lra | exact IH].
Qed.

(** Terms that vanish can be filtered out of a sum. *)
Lemma vsum_filter {A : Type} (m : nat) (g : A -> list R) (p : A -> bool) (l : list A) :
  (forall k, In k l -> length (g k) = m) ->
  (forall k, In k l -> p k = false -> g k = vzero m) ->
  vsum m (map g l) = vsum m (map g (filter p l)).
Proof.
  induction l as [|k l IH]; intros Hlen Hz; [reflexivity |].
  cbn [map filter vsum fold_right].
  assert (IH' : vsum m (map g l) = vsum m (map g (filter p l))).
  { apply IH; intros; [apply Hlen | apply Hz]; simpl; auto. }
  destruct (p k) eqn:Hp.
  - cbn [map vsum fold_right]. fold (vsum m (map g l)).
    fold (vsum m (map g (filter p l))). rewrite IH'. reflexivity.
  - fold (vsum m (map g l)). rewrite (Hz k) by (simpl; auto).
    rewrite IH'.
    assert (Hl : length (vsum m (map g (filter p l))) = m).
    { apply vsum_length. apply Forall_map. apply Forall_forall.
      intros x Hx. apply Hlen. right. apply filter_In in Hx. apply Hx. }
    rewrite <- Hl at 1. apply vadd_zero_l.
Qed.

Lemma filter_false {A : Type} (p : A -> bool) (l : list A) :
  (forall x, In x l -> p x = false) -> filter p l = [].
Proof.
  induction l as [|x l IH]; intros H; [reflexivity |].
  cbn. rewrite (H x) by (left; reflexivity). apply IH. intros; apply H; right; assumption.
Qed.

Lemma filter_eqb_seq (i n : nat) :
  (i < n)%nat -> filter (fun k => (i =? k)%nat) (seq 0 n) = [i].
Proof.
  induction n as [|n IH]; intros Hi; [lia |].
  rewrite seq_S, filter_app. cbn [Nat.add filter].
  destruct (Nat.eqb_spec i n) as [-> | Hne].
  - rewrite filter_false; [reflexivity |].
    intros x Hx. apply in_seq in Hx. apply Nat.eqb_neq. lia.
  - rewrite IH by lia. reflexivity.
Qed.

(** A sum with the diagonal row [i] of [np.diag(d)] picks row [i]. *)
Lemma vecmat_diag_row (m n i : nat) (x : R) (B : list (list R)) :
  length B = n -> Forall (fun r => length r = m) B -> (i < n)%nat ->
  vecmat m (map (fun j => if (i =? j)%nat then x else 0) (seq 0 n)) B
  = vscale x (nth i B []).
Proof.
  intros Hn HB Hi. unfold vecmat.
  rewrite Forall_forall in HB.
  assert (HBk : forall k, (k < n)%nat -> length (nth k B []) = m).
  { intros k Hk. apply HB. apply nth_In. lia. }
  rewrite (map2_as_seq vscale _ _ 0 [])
    by (rewrite length_map, length_seq; congruence).
  rewrite length_map, length_seq.
  rewrite (@vsum_filter _ m _ (fun k => (i =? k)%nat)).
  - rewrite filter_eqb_seq by assumption. cbn [map vsum fold_right].
    rewrite nth_map_seq by assumption. rewrite Nat.eqb_refl.
    rewrite <- (HBk i Hi) at 1. rewrite <- (vscale_length x).
    apply vadd_zero_r.
  - intros k Hk. apply in_seq in Hk. rewrite vscale_length. apply HBk. lia.
  - intros k Hk Hp. apply in_seq in Hk.
    rewrite nth_map_seq by lia. rewrite Hp, vscale_zero. f_equal. apply HBk. lia.
Qed.

(** A sum with a row of zeros and ones adds the rows marked 1. *)
Lemma vecmat_binary_row (m : nat) (a : list Z) (B : list (list R)) :
  length a = length B -> Forall (fun r => length r = m) B ->
  Forall (fun x => x = 0%Z \/ x = 1%Z) a ->
  vecmat m (map IZR a) B
  = vsum m (map (fun k => nth k B [])
                (filter (fun k => (nth k a 0 =? 1)%Z) (seq 0 (length a)))).
Proof.
  intros Hn HB Ha. unfold vecmat.
  rewrite Forall_forall in HB, Ha.
  assert (HBk : forall k, (k < length a)%nat -> length (nth k B []) = m).
  { intros k Hk. apply HB. apply nth_In. lia. }
  rewrite (map2_as_seq vscale _ _ 0 []) by (rewrite length_map; congruence).
  rewrite length_map.
  rewrite (@vsum_filter _ m _ (fun k => (nth k a 0 =? 1)%Z)).
  - f_equal. apply map_ext_in. intros k Hk.
    apply filter_In in Hk. destruct Hk as [Hk Hp]. apply in_seq in Hk.
    rewrite nth_map_lt with (d := 0%Z) by lia.
    apply Z.eqb_eq in Hp. rewrite Hp. apply vscale_one.
  - intros k Hk. apply in_seq in Hk. rewrite vscale_length. apply HBk. lia.
  - intros k Hk Hp. apply in_seq in Hk.
    rewrite nth_map_lt with (d := 0%Z) by lia.
    destruct (Ha (nth k a 0%Z)) as [E | E]; [apply nth_In; lia | |].
    + rewrite E, vscale_zero. f_equal. apply HBk. lia.
    + rewrite E in Hp. discriminate.
Qed.

Lemma filter_map_S_length (f : nat -> bool) (l : list nat) :
  length (filter f (map S l)) = length (filter (fun k => f (S k)) l).
Proof.
  induction l as [|k l IH]; [reflexivity |].
  cbn [map filter]. destruct (f (S k)); cbn [length]; congruence.
Qed.

(** The sum of a row of zeros and ones counts the ones. *)
Lemma binary_row_sum (a : list Z) :
  Forall (fun x => x = 0%Z \/ x = 1%Z) a ->
  fold_right Z.add 0%Z a
  = Z.of_nat (length (filter (fun k => (nth k a 0 =? 1)%Z) (seq 0 (length a)))).
Proof.
  induction 1 as [|x a Hx Ha IH]; [reflexivity |].
  cbn [fold_right length seq]. rewrite <- seq_shift.
  remember (fun k => (nth k (x :: a) 0 =? 1)%Z) as f eqn:Hf.
  cbn [filter]. 
  assert (E : length (filter f (map S (seq 0 (length a))))
              = length (filter (fun k => (nth k a 0 =? 1)%Z) (seq 0 (length a)))).
  { rewrite filter_map_S_length. subst f. reflexivity. }
  assert (E0 : f 0%nat = (x =? 1)%Z) by (subst f; reflexivity).
  rewrite E0. destruct Hx as [-> | ->]; cbn [Z.eqb Pos.eqb length]; rewrite E, IH; lia.
Qed.

(* ------------------------------------------------------------------ *)
(** ** GCN: degree-normalized aggregation *)

Lemma np_diag_wf (v : list R) : wf (np_diag v).
Proof.
  split; cbn [np_diag rows nrows ncols].
  - rewrite length_map, length_seq. reflexivity.
  - apply Forall_map. apply Forall_forall. intros i _.
    rewrite length_map, length_seq. reflexivity.
Qed.

Lemma D_of_length (A : imatrix) : length (D_of A) = length (rows A).
Proof. unfold D_of. apply length_map. Qed.

(** Row [i] of [ND_GCN] is row [i] of [A . L_0] times [1 / D[i]];
    nothing on the way looks at the value of [D[i]]. *)
Lemma ND_GCN_rows (A : imatrix) (L_0 : matrix) :
  wf A -> wf L_0 -> ncols A = nrows L_0 ->
  exists out,
    ND_GCN_of A L_0 = Ok out /\ has_shape (nrows A) (ncols L_0) out /\
    forall i, (i < nrows A)%nat ->
      row out i = vscale (/ IZR (nth i (D_of A) 0%Z))
                         (vecmat (ncols L_0) (map IZR (row A i)) (rows L_0)).
Proof.
  intros HA HL E.
  destruct (@dot_ok (astype_float A) L_0) as [G [EG [[HGwf [HGn HGm]] HGrows]]];
    [apply astype_float_wf; assumption | assumption | exact E |].
  cbn [astype_float nrows] in HGn, HGrows. cbn [rows] in HGrows.
  assert (Hlen : length (rows A) = nrows A) by apply HA.
  destruct (@dot_ok (D_rec_of A) G) as [out [Eo [Ho Horows]]];
    [apply np_diag_wf | assumption | |].
  { unfold D_rec_of. cbn [np_diag ncols]. rewrite length_map, D_of_length. congruence. }
  assert (Hn : nrows (D_rec_of A) = nrows A).
  { unfold D_rec_of. cbn [np_diag nrows]. rewrite length_map, D_of_length. assumption. }
  exists out. unfold ND_GCN_of, ND_GNN_of. rewrite EG. cbn [bind].
  split; [exact Eo |]. rewrite Hn, HGm in Ho. split; [exact Ho |].
  intros i Hi. unfold row at 1. rewrite Horows.
  unfold D_rec_of at 1. cbn [np_diag rows]. rewrite length_map, D_of_length, Hlen.
  rewrite map_map.
  rewrite nth_map_lt with (d := 0%nat) by (rewrite length_seq; assumption).
  rewrite seq_nth by assumption. cbn [Nat.add].
  rewrite HGm.
  assert (HG1 : length (rows G) = nrows A) by (destruct HGwf; congruence).
  assert (HG2 : Forall (fun r => length r = ncols L_0) (rows G))
    by (rewrite <- HGm; apply HGwf).
  rewrite (@vecmat_diag_row (ncols L_0) (nrows A) i _ _ HG1 HG2 Hi).
  f_equal.
  - rewrite nth_map_lt with (d := 0%Z) by (rewrite D_of_length; lia). reflexivity.
  - rewrite HGrows.
    rewrite nth_map_lt with (d := [])
      by (cbn [astype_float rows]; rewrite length_map; lia).
    f_equal. cbn [astype_float rows]. unfold row. apply nth_map_lt. lia.
Qed.

Lemma neighbors_row (A : imatrix) (i : nat) :
  wf A -> (i < nrows A)%nat ->
  neighbors A i
  = filter (fun k => (nth k (row A i) 0 =? 1)%Z) (seq 0 (length (row A i))).
Proof. intros HA Hi. rewrite (row_length HA Hi). reflexivity. Qed.

Lemma binary_row (A : imatrix) (i : nat) :
  binary A -> Forall (fun a => a = 0%Z \/ a = 1%Z) (row A i).
Proof.
  intros HA. unfold row. destruct (Nat.lt_ge_cases i (length (rows A))).
  - unfold binary in HA. rewrite Forall_forall in HA. apply HA. apply nth_In. assumption.
  - rewrite nth_overflow by assumption. constructor.
Qed.

Lemma D_of_nth (A : imatrix) (i : nat) :
  wf A -> (i < nrows A)%nat ->
  nth i (D_of A) 0%Z = fold_right Z.add 0%Z (row A i).
Proof.
  intros [Hl _] Hi. unfold D_of, row.
  apply nth_map_lt with (f := fun r => fold_right Z.add 0%Z r). lia.
Qed.

(** C3.  On a square adjacency matrix of zeros and ones in which every
    node has a neighbor, row [i] of [ND_GCN] is the sum of the projected
    rows of the neighbors of [i] divided by [D[i]], the sum of adjacency
    row [i], which is the number of neighbors: their elementwise mean. *)
Theorem C3_gcn_row_is_neighbor_mean (n E : nat) (A : imatrix) (L_0 : matrix) :
  has_shape n n A -> binary A -> has_shape n E L_0 ->
  Forall (fun d => d <> 0%Z) (D_of A) ->
  exists out,
    ND_GCN_of A L_0 = Ok out /\ has_shape n E out /\
    forall i, (i < n)%nat ->
      nth i (D_of A) 0%Z = fold_right Z.add 0%Z (row A i) /\
      nth i (D_of A) 0%Z = Z.of_nat (length (neighbors A i)) /\
      row out i = vscale (/ IZR (nth i (D_of A) 0%Z))
                         (vsum E (map (row L_0) (neighbors A i))).
Proof.
  intros [HA [HAn HAm]] HAb [HL [HLn HLm]] _.
  destruct (@ND_GCN_rows A L_0) as [out [Eo [Ho Hrows]]];
    [assumption | assumption | congruence |].
  exists out. split; [exact Eo |]. rewrite HAn, HLm in Ho. split; [exact Ho |].
  intros i Hi. rewrite <- HAn in Hi.
  assert (Hd : nth i (D_of A) 0%Z = fold_right Z.add 0%Z (row A i))
    by (apply D_of_nth; assumption).
  split; [exact Hd |]. split.
  - rewrite Hd, (binary_row_sum (binary_row i HAb)).
    rewrite neighbors_row by assumption. reflexivity.
  - rewrite (Hrows i Hi). f_equal. rewrite HLm.
    rewrite vecmat_binary_row.
    + rewrite <- neighbors_row by assumption. reflexivity.
    + rewrite (row_length HA Hi). destruct HL. congruence.
    + rewrite <- HLm. apply HL.
    + apply binary_row. assumption.
Qed.

Lemma C3_gcn_witness :
  exists out,
    ND_GCN_of A_cycle L_0_example = Ok out /\
    has_shape 5 1 out /\
    forall i, (i < 5)%nat ->
      nth i (D_of A_cycle) 0%Z = fold_right Z.add 0%Z (row A_cycle i) /\
      nth i (D_of A_cycle) 0%Z = Z.of_nat (length (neighbors A_cycle i)) /\
      row out i = vscale (/ IZR (nth i (D_of A_cycle) 0%Z))
                         (vsum 1 (map (row L_0_example) (neighbors A_cycle i))).
Proof.
  apply (@C3_gcn_row_is_neighbor_mean 5 1).
  - shape_tac.
  - unfold binary. cbn [rows A_cycle].
    repeat (apply Forall_cons || apply Forall_nil); auto.
  - shape_tac.
  - cbv [D_of A_cycle rows map fold_right]. repeat constructor; discriminate.
Defined.

(** C4 (amended).  The degree-normalized aggregation has no zero-degree
    check: for every adjacency matrix, with or without a zero row sum,
    whose column count is the row count of the projected features, it
    raises nothing and returns a matrix with one row per node. *)
Theorem C4_gcn_has_no_zero_degree_check (A : imatrix) (L_0 : matrix) :
  wf A -> wf L_0 -> ncols A = nrows L_0 ->
  exists out, ND_GCN_of A L_0 = Ok out /\ has_shape (nrows A) (ncols L_0) out.
Proof.
  intros HA HL E. destruct (ND_GCN_rows HA HL E) as [out [Eo [Ho _]]].
  exists out. split; assumption.
Qed.

Lemma C4_gcn_witness :
  exists out,
    ND_GCN_of A_zero_degree L_0_example = Ok out /\ has_shape 5 1 out.
Proof.
  apply (@C4_gcn_has_no_zero_degree_check A_zero_degree L_0_example).
  - split; [reflexivity | repeat constructor].
  - split; [reflexivity | repeat constructor].
  - reflexivity.
Defined.

(** C4, as stated, fails: node 3 of [A_zero_degree] has degree zero,
    and the aggregation still returns an output matrix. *)
Lemma C4_gcn_counterexample :
  nth 3 (D_of A_zero_degree) 1%Z = 0%Z /\
  exists out, ND_GCN_of A_zero_degree L_0_example = Ok out /\ nrows out = 5%nat.
Proof.
  split; [reflexivity |].
  destruct (@ND_GCN_rows A_zero_degree L_0_example) as [out [Eo [[_ [Hn _]] _]]].
  - split; [reflexivity | repeat constructor].
  - split; [reflexivity | repeat constructor].
  - reflexivity.
  - exists out. split; assumption.
Qed.

(* ------------------------------------------------------------------ *)
(** ** Index assignment *)

Lemma update_length {T : Type} (l : list T) (i : nat) (x : T) :
  length (update l i x) = length l.
Proof.
  revert i; induction l as [|y l IH]; intros [|i]; simpl; auto.
Qed.

Lemma update_nth {T : Type} (l : list T) (i j : nat) (x d : T) :
  (i < length l)%nat ->
  nth j (update l i x) d = if (i =? j)%nat then x else nth j l d.
Proof.
  revert i j; induction l as [|y l IH]; intros [|i] [|j] Hi; simpl in *; try lia; auto.
  apply IH. lia.
Qed.

Lemma update_Forall {T : Type} (P : T -> Prop) (l : list T) (i : nat) (x : T) :
  Forall P l -> ((i < length l)%nat -> P x) -> Forall P (update l i x).
Proof.
  intros Hl. revert i; induction Hl as [|y l Hy Hl IH]; intros [|i] Hx; simpl in *;
    constructor; auto.
  - apply Hx. lia.
  - apply IH. intros. apply Hx. lia.
Qed.

Lemma set2_shape (M : matrix) (p : nat * nat * R) :
  nrows (set2 M p) = nrows M /\ ncols (set2 M p) = ncols M.
Proof. destruct p as [[r c] x]. split; reflexivity. Qed.

Lemma set2_wf (M : matrix) (p : nat * nat * R) : wf M -> wf (set2 M p).
Proof.
  destruct p as [[r c] x]. intros [Hl Hr]. split; cbn [set2 rows nrows ncols].
  - rewrite update_length. assumption.
  - apply update_Forall; [assumption |]. intros H.
    rewrite update_length. unfold row.
    rewrite Forall_forall in Hr. apply Hr. apply nth_In. assumption.
Qed.

Lemma get_set2 (M : matrix) (r c : nat) (x : R) (r' c' : nat) :
  wf M -> (r < nrows M)%nat -> (c < ncols M)%nat ->
  get (set2 M (r, c, x)) r' c'
  = if ((r =? r') && (c =? c'))%nat then x else get M r' c'.
Proof.
  intros HM Hr Hc. unfold get, row at 1. cbn [set2 rows].
  rewrite update_nth by (destruct HM; lia).
  destruct (Nat.eqb_spec r r') as [-> | Hne]; cbn [andb]; [| reflexivity].
  rewrite update_nth by (rewrite row_length; assumption).
  reflexivity.
Qed.

Lemma fold_set2_wf (l : list (nat * nat * R)) (M : matrix) :
  wf M ->
  wf (fold_left set2 l M) /\
  nrows (fold_left set2 l M) = nrows M /\ ncols (fold_left set2 l M) = ncols M.
Proof.
  revert M; induction l as [|p l IH]; intros M HM; cbn [fold_left]; [auto |].
  destruct (IH (set2 M p) (set2_wf p HM)) as [H1 [H2 H3]].
  destruct (set2_shape M p) as [E1 E2]. rewrite H2, H3. auto.
Qed.

(** Writing each coordinate at most once: an entry holds the value
    assigned to it, or what it held before. *)
Lemma get_fold_set2 (l : list (nat * nat * R)) (M : matrix) (r c : nat) :
  wf M ->
  Forall (fun p => (fst (fst p) < nrows M)%nat /\ (snd (fst p) < ncols M)%nat) l ->
  NoDup (map fst l) ->
  get (fold_left set2 l M) r c
  = match assoc2 l r c with Some x => x | None => get M r c end.
Proof.
  revert M; induction l as [|[[r' c'] x] l IH]; intros M HM Hl Hnd; [reflexivity |].
  cbn [fold_left assoc2]. inversion Hl as [|? ? [Hr' Hc'] Hl']; subst.
  inversion Hnd as [|? ? Hnotin Hnd']; subst. cbn [fst snd] in *.
  rewrite IH; [| apply set2_wf; assumption | exact Hl' | exact Hnd'].
  rewrite get_set2 by assumption.
  destruct ((r' =? r) && (c' =? c))%nat eqn:Ek; [| reflexivity].
  apply andb_true_iff in Ek. destruct Ek as [E1 E2].
  apply Nat.eqb_eq in E1, E2. subst r' c'.
  assert (En : assoc2 l r c = None).
  { clear -Hnotin. induction l as [|[[r1 c1] y] l IH]; [reflexivity |].
    cbn [assoc2]. cbn [map fst] in Hnotin.
    destruct ((r1 =? r) && (c1 =? c))%nat eqn:Ek.
    - apply andb_true_iff in Ek. destruct Ek as [E1 E2].
      apply Nat.eqb_eq in E1, E2. subst. exfalso. apply Hnotin. left. reflexivity.
    - apply IH. intros H. apply Hnotin. right. exact H. }
  rewrite En. reflexivity.
Qed.

Lemma combine_app_eq {A B : Type} (l1 l2 : list A) (v1 v2 : list B) :
  length l1 = length v1 ->
  combine (l1 ++ l2) (v1 ++ v2) = combine l1 v1 ++ combine l2 v2.
Proof.
  revert v1; induction l1 as [|a l1 IH]; intros [|b v1] H; simpl in *; try lia; auto.
  rewrite IH by lia. reflexivity.
Qed.

Lemma map_fst_combine {A B : Type} (l : list A) (v : list B) :
  length l = length v -> map fst (combine l v) = l.
Proof.
  revert v; induction l as [|a l IH]; intros [|b v] H; simpl in *; try lia; auto.
  rewrite IH by lia. reflexivity.
Qed.

(** The coordinates of [np.where(A == 1)], row by row. *)
Lemma where_eq1_blocks (A : imatrix) :
  where_eq1 A = flat_map (fun r => map (pair r) (neighbors A r)) (seq 0 (nrows A)).
Proof. reflexivity. Qed.

Lemma combine_blocks (rs : list nat) (ks : nat -> list nat) (bl : nat -> list R) :
  (forall r, In r rs -> length (bl r) = length (ks r)) ->
  combine (flat_map (fun r => map (pair r) (ks r)) rs) (concat (map bl rs))
  = flat_map (fun r => combine (map (pair r) (ks r)) (bl r)) rs.
Proof.
  induction rs as [|r rs IH]; intros H; [reflexivity |].
  cbn [flat_map map concat].
  rewrite combine_app_eq by (rewrite length_map; symmetry; apply H; left; reflexivity).
  rewrite IH by (intros; apply H; right; assumption). reflexivity.
Qed.

Lemma blocks_length (rs : list nat) (ks : nat -> list nat) (bl : nat -> list R) :
  (forall r, In r rs -> length (bl r) = length (ks r)) ->
  length (concat (map bl rs)) = length (flat_map (fun r => map (pair r) (ks r)) rs).
Proof.
  induction rs as [|r rs IH]; intros H; [reflexivity |].
  cbn [flat_map map concat]. rewrite !length_app, length_map.
  rewrite IH by (intros; apply H; right; assumption).
  rewrite H by (left; reflexivity). reflexivity.
Qed.

Lemma blocks_NoDup (rs : list nat) (ks : nat -> list nat) :
  NoDup rs -> (forall r, NoDup (ks r)) ->
  NoDup (flat_map (fun r => map (pair r) (ks r)) rs).
Proof.
  induction 1 as [|r rs Hr Hrs IH]; intros Hks; cbn [flat_map]; [constructor |].
  apply NoDup_app.
  - apply NoDup_map_NoDup_ForallPairs; [| apply Hks].
    intros x y _ _ E. congruence.
  - apply IH. assumption.
  - intros [r1 c1] H1 H2. apply in_map_iff in H1. destruct H1 as [c [E _]].
    apply in_flat_map in H2. destruct H2 as [r2 [Hr2 H2]].
    apply in_map_iff in H2. destruct H2 as [c2 [E2 _]].
    congruence.
Qed.

Lemma assoc2_app (l1 l2 : list (nat * nat * R)) (r c : nat) :
  assoc2 (l1 ++ l2) r c
  = match assoc2 l1 r c with Some x => Some x | None => assoc2 l2 r c end.
Proof.
  induction l1 as [|[[r1 c1] x] l1 IH]; [reflexivity |].
  cbn [app assoc2]. destruct ((r1 =? r) && (c1 =? c))%nat; auto.
Qed.

Lemma assoc2_block (r' : nat) (ks : list nat) (vs : list R) (r c : nat) :
  assoc2 (combine (map (pair r') ks) vs) r c
  = if (r' =? r)%nat then lookup (combine ks vs) c else None.
Proof.
  revert vs; induction ks as [|k ks IH]; intros [|v vs]; cbn [map combine assoc2 lookup];
    try (destruct (r' =? r)%nat; reflexivity).
  rewrite IH. destruct (r' =? r)%nat; cbn [andb]; [| reflexivity].
  reflexivity.
Qed.

Lemma assoc2_blocks (rs : list nat) (ks : nat -> list nat) (bl : nat -> list R)
      (r c : nat) :
  In r rs ->
  assoc2 (flat_map (fun r' => combine (map (pair r') (ks r')) (bl r')) rs) r c
  = lookup (combine (ks r) (bl r)) c.
Proof.
  assert (Hnone : forall rs, ~ In r rs ->
            assoc2 (flat_map (fun r' => combine (map (pair r') (ks r')) (bl r')) rs) r c
            = None).
  { clear rs. induction rs as [|r' rs' IH]; intros Hn; [reflexivity |].
    cbn [flat_map]. rewrite assoc2_app, assoc2_block.
    destruct (Nat.eqb_spec r' r) as [-> | Hne].
    - exfalso. apply Hn. left. reflexivity.
    - apply IH. intros H. apply Hn. right. exact H. }
  induction rs as [|r' rs IH]; intros Hin; [contradiction |].
  cbn [flat_map]. rewrite assoc2_app, assoc2_block.
  destruct (Nat.eqb_spec r' r) as [-> | Hne].
  - destruct (lookup (combine (ks r) (bl r)) c) eqn:El; [reflexivity |].
    destruct (in_dec Nat.eq_dec r rs) as [Hi | Hi].
    + apply IH. assumption.
    + apply Hnone. assumption.
  - apply IH. destruct Hin; [congruence | assumption].
Qed.

Lemma neighbors_lt (A : imatrix) (r c : nat) :
  In c (neighbors A r) -> (c < ncols A)%nat /\ iget A r c = 1%Z.
Proof.
  unfold neighbors. intros H. apply filter_In in H. destruct H as [H1 H2].
  apply in_seq in H1. apply Z.eqb_eq in H2. split; [lia | assumption].
Qed.

Lemma neighbors_NoDup (A : imatrix) (r : nat) : NoDup (neighbors A r).
Proof. unfold neighbors. apply NoDup_filter. apply seq_NoDup. Qed.

Lemma zeros_wf (n m : nat) : wf (zeros n m).
Proof.
  split; cbn [zeros rows nrows ncols].
  - apply repeat_length.
  - apply Forall_forall. intros r Hr. apply repeat_spec in Hr. subst r.
    apply vzero_length.
Qed.

Lemma get_zeros (n m r c : nat) : get (zeros n m) r c = 0.
Proof.
  unfold get, row. cbn [zeros rows].
  destruct (Nat.lt_ge_cases r n).
  - rewrite nth_repeat_lt by assumption. apply vzero_nth.
  - rewrite (nth_overflow (repeat (vzero m) n) [])
      by (rewrite repeat_length; assumption).
    destruct c; reflexivity.
Qed.

(** Scattering one block of values per row through [np.where(A == 1)]:
    entry [(r, c)] receives the value that block [r] pairs with [c]. *)
Lemma setitem_blocks (A : imatrix) (bl : nat -> list R) :
  (forall r, (r < nrows A)%nat -> length (bl r) = length (neighbors A r)) ->
  exists M,
    setitem (zeros (nrows A) (ncols A)) (where_eq1 A)
            (concat (map bl (seq 0 (nrows A)))) = Ok M /\
    has_shape (nrows A) (ncols A) M /\
    forall r c, (r < nrows A)%nat ->
      get M r c = or_zero (lookup (combine (neighbors A r) (bl r)) c).
Proof.
  intros Hbl.
  assert (Hbl' : forall r, In r (seq 0 (nrows A)) ->
                           length (bl r) = length (neighbors A r)).
  { intros r Hr. apply in_seq in Hr. apply Hbl. lia. }
  assert (Hrange : Forall (fun p => (fst p < nrows A)%nat /\ (snd p < ncols A)%nat)
                          (where_eq1 A)).
  { apply Forall_forall. intros [r c] Hp. rewrite where_eq1_blocks in Hp.
    apply in_flat_map in Hp. destruct Hp as [r' [Hr' Hp]].
    apply in_map_iff in Hp. destruct Hp as [c' [E Hc']]. injection E as <- <-.
    apply in_seq in Hr'. apply neighbors_lt in Hc'. cbn [fst snd]. lia. }
  unfold setitem. cbn [zeros nrows ncols].
  replace (forallb _ (where_eq1 A)) with true.
  2:{ symmetry. apply forallb_forall. intros p Hp.
      rewrite Forall_forall in Hrange. destruct (Hrange p Hp) as [H1 H2].
      apply andb_true_iff. split; apply Nat.ltb_lt; assumption. }
  rewrite where_eq1_blocks.
  rewrite (blocks_length _ _ _ Hbl'), Nat.eqb_refl.
  eexists. split; [reflexivity |].
  destruct (fold_set2_wf
              (combine (flat_map (fun r => map (pair r) (neighbors A r)) (seq 0 (nrows A)))
                       (concat (map bl (seq 0 (nrows A)))))
              (zeros_wf (nrows A) (ncols A))) as [Hwf [Hn Hm]].
  split; [split; [exact Hwf | split; [exact Hn | exact Hm]] |].
  intros r c Hr.
  rewrite get_fold_set2.
  - rewrite combine_blocks by assumption.
    rewrite assoc2_blocks by (apply in_seq; lia).
    rewrite get_zeros.
    destruct (lookup (combine (neighbors A r) (bl r)) c); reflexivity.
  - apply zeros_wf.
  - apply Forall_forall. intros [[r' c'] x] Hp. cbn [fst snd zeros nrows ncols].
    apply in_combine_l in Hp. rewrite <- where_eq1_blocks in Hp.
    rewrite Forall_forall in Hrange. apply (Hrange (r', c') Hp).
  - rewrite map_fst_combine by (symmetry; apply blocks_length; assumption).
    apply blocks_NoDup; [apply seq_NoDup | apply neighbors_NoDup].
Qed.

(* ------------------------------------------------------------------ *)
(** ** GAT: scores, normalization, scatter *)

Lemma map_seq_nth {A B : Type} (g : A -> B) (l : list A) (d : A) :
  map (fun i => g (nth i l d)) (seq 0 (length l)) = map g l.
Proof.
  rewrite <- (map_map (fun i => nth i l d) g). rewrite map_nth_seq. reflexivity.
Qed.

Lemma concat_map_singleton {A B : Type} (f : A -> B) (l : list A) :
  concat (map (fun x => [f x]) l) = map f l.
Proof. induction l as [|x l IH]; cbn; [| rewrite IH]; reflexivity. Qed.

Lemma list_length1 {A : Type} (l : list A) (d : A) :
  length l = 1%nat -> l = [nth 0 l d].
Proof. destruct l as [|x [|y l]]; cbn; intros; try lia. reflexivity. Qed.

Lemma where_eq1_range (A : imatrix) (p : nat * nat) :
  In p (where_eq1 A) -> (fst p < nrows A)%nat /\ (snd p < ncols A)%nat.
Proof.
  destruct p as [r c]. intros Hp. rewrite where_eq1_blocks in Hp.
  apply in_flat_map in Hp. destruct Hp as [r' [Hr' Hp]].
  apply in_map_iff in Hp. destruct Hp as [c' [E Hc']]. injection E as <- <-.
  apply in_seq in Hr'. apply neighbors_lt in Hc'. cbn [fst snd]. lia.
Qed.

Lemma take_rows_ok (M : matrix) (idx : list nat) :
  Forall (fun i => (i < nrows M)%nat) idx ->
  take_rows M idx = Ok (mkArray2 (length idx) (ncols M) (map (row M) idx)).
Proof.
  intros H. unfold take_rows.
  replace (forallb _ idx) with true; [reflexivity |].
  symmetry. apply forallb_forall. rewrite Forall_forall in H.
  intros i Hi. apply Nat.ltb_lt. apply H. assumption.
Qed.

Lemma lookup_combine_map (g : nat -> R) (ks : list nat) (c : nat) :
  (In c ks -> lookup (combine ks (map g ks)) c = Some (g c)) /\
  (~ In c ks -> lookup (combine ks (map g ks)) c = None).
Proof.
  induction ks as [|k ks [IH1 IH2]]; cbn [map combine lookup].
  - split; [contradiction | reflexivity].
  - destruct (Nat.eqb_spec k c) as [-> | Hne]; split; intros H.
    + reflexivity.
    + exfalso. apply H. left. reflexivity.
    + apply IH1. destruct H; [congruence | assumption].
    + apply IH2. intros Hc. apply H. right. exact Hc.
Qed.

Lemma column_as_get (M : matrix) (k : nat) :
  wf M -> column 0 M k = map (fun r => get M r k) (seq 0 (nrows M)).
Proof.
  intros [Hl _]. unfold column, get, row. rewrite <- Hl.
  symmetry. apply (map_seq_nth (fun rw => nth k rw 0)).
Qed.

Lemma nonzero_0 : nonzero 0 = false.
Proof. unfold nonzero. destruct (Req_dec_T 0 0); [reflexivity | congruence]. Qed.


(** The mask [!= 0] on a column that holds [s r] where [q r] and 0
    elsewhere keeps the [s r] that are not 0. *)
Lemma filter_nonzero_ite {T : Type} (q : T -> bool) (s : T -> R) (l : list T) :
  filter nonzero (map (fun r => if q r then s r else 0) l)
  = map s (filter (fun r => q r && nonzero (s r)) l).
Proof.
  induction l as [|r l IH]; [reflexivity |].
  cbn [map filter]. destruct (q r); cbn [andb].
  - destruct (nonzero (s r)); cbn [map]; rewrite IH; reflexivity.
  - rewrite nonzero_0. exact IH.
Qed.

Lemma filter_filter_andb {T : Type} (p q : T -> bool) (l : list T) :
  filter p (filter q l) = filter (fun x => q x && p x) l.
Proof.
  induction l as [|x l IH]; [reflexivity |].
  cbn [filter]. destruct (q x); cbn [andb filter]; [destruct (p x) |]; rewrite IH; reflexivity.
Qed.

Lemma softmax_vec_raises (v : list R) (e : exn) :
  softmax_vec v = Raise e -> e = ValueError.
Proof.
  destruct v as [|x l]; [cbn; congruence |].
  rewrite softmax_vec_cons. discriminate.
Qed.

Lemma sequence_raise {T U : Type} (f : T -> result U) (l : list T) (e0 : exn) (x : T) :
  (forall y e, In y l -> f y = Raise e -> e = e0) ->
  In x l -> f x = Raise e0 ->
  sequence (map f l) = Raise e0.
Proof.
  induction l as [|y l IH]; intros Hall Hin Hx; [contradiction |].
  cbn [map sequence]. destruct (f y) as [a | e] eqn:Ey; cbn [bind].
  - destruct Hin as [-> | Hin]; [congruence |].
    rewrite IH; [reflexivity | | assumption | assumption].
    intros; eapply Hall; [right |]; eassumption.
  - f_equal. apply (Hall y); [left; reflexivity | assumption].
Qed.




Lemma In_where_eq1 (A : imatrix) (r c : nat) :
  (r < nrows A)%nat -> (c < ncols A)%nat -> iget A r c = 1%Z ->
  In (r, c) (where_eq1 A).
Proof.
  intros Hr Hc E. rewrite where_eq1_blocks. apply in_flat_map.
  exists r. split; [apply in_seq; lia |].
  apply in_map. unfold neighbors. apply filter_In.
  split; [apply in_seq; lia | apply Z.eqb_eq; assumption].
Qed.

Section GAT.

Variables (n E : nat) (A : imatrix) (z1 att : matrix).
Hypothesis HA : has_shape n n A.
Hypothesis Hz : has_shape n E z1.
Hypothesis Hatt : has_shape 1 (2 * E) att.

(** One rectified score per edge, in the order of the edge list. *)
Lemma e_of_scores :
  exists e, e_of A z1 att = Ok e /\ reshape_flat e = map (score_of z1 att) (where_eq1 A).
Proof.
  destruct HA as [HAwf [HAn HAm]], Hz as [Hzwf [Hzn Hzm]],
           Hatt as [Hawf [Han Ham]].
  unfold e_of, z2_of.
  rewrite take_rows_ok.
  2:{ apply Forall_map. apply Forall_forall. intros p Hp.
      apply where_eq1_range in Hp. lia. }
  cbn [bind]. rewrite take_rows_ok.
  2:{ apply Forall_map. apply Forall_forall. intros p Hp.
      apply where_eq1_range in Hp. lia. }
  cbn [bind]. unfold concatenate_axis1.
  cbn [forallb nrows]. rewrite !length_map, Nat.eqb_refl. cbn [andb bind].
  unfold dot. cbn [nrows ncols map transpose].
  replace (list_sum [ncols z1; ncols z1] =? ncols att)%nat with true
    by (symmetry; apply Nat.eqb_eq; cbn; lia).
  cbn [bind]. eexists. split; [reflexivity |].
  unfold reshape_flat, leaky_relu. cbn [rows flat_map].
  rewrite !map_map. unfold row at 1 2. cbn [rows].
  rewrite <- (concat_map_singleton (score_of z1 att)).
  f_equal.
  rewrite <- (map_seq_nth (fun p => [score_of z1 att p]) (where_eq1 A) (0%nat, 0%nat)).
  apply map_ext_in. intros i Hi. apply in_seq in Hi.
  unfold row. cbn [rows].
  rewrite !nth_map_lt with (d := (0%nat, 0%nat)) by lia.
  set (p := nth i (where_eq1 A) (0%nat, 0%nat)).
  fold (row z1 (fst p)). fold (row z1 (snd p)).
  set (u := row z1 (fst p) ++ row z1 (snd p) ++ []).
  assert (Hcols : Forall (fun r => length r = 1%nat) (rows (transpose att))).
  { rewrite <- Han. apply (transpose_wf Hawf). }
  assert (Hlen : length (vecmat (nrows att) u (rows (transpose att))) = 1%nat).
  { rewrite Han. apply vecmat_length. exact Hcols. }
  rewrite (list_length1 _ 0 Hlen). cbn [map]. f_equal.
  unfold score_of, edge_score. f_equal.
  rewrite Han, vecmat_nth by exact Hcols.
  rewrite transpose_column by (assumption || lia).
  unfold u. rewrite app_nil_r. reflexivity.
Qed.

(** The dense score matrix holds the score of every edge and 0 where
    there is no edge. *)
Lemma e_matr_entries (e : matrix) :
  reshape_flat e = map (score_of z1 att) (where_eq1 A) ->
  exists e_matr,
    e_matr_of A e = Ok e_matr /\ has_shape n n e_matr /\
    forall r c, (r < n)%nat -> (c < n)%nat ->
      get e_matr r c
      = if (iget A r c =? 1)%Z then edge_score z1 att r c else 0.
Proof.
  intros He. destruct HA as [HAwf [HAn HAm]].
  set (bl := fun r => map (fun c => edge_score z1 att r c) (neighbors A r)).
  destruct (@setitem_blocks A bl) as [M [EM [HM Hget]]].
  { intros r _. unfold bl. apply length_map. }
  exists M. unfold e_matr_of. rewrite He.
  replace (map (score_of z1 att) (where_eq1 A)) with (concat (map bl (seq 0 (nrows A)))).
  2:{ rewrite where_eq1_blocks, flat_map_concat_map, concat_map, map_map.
      f_equal. apply map_ext. intros r. unfold bl. rewrite map_map. reflexivity. }
  split; [exact EM |]. rewrite HAn, HAm in HM. split; [exact HM |].
  intros r c Hr Hc. rewrite Hget by lia. unfold bl.
  destruct (lookup_combine_map (fun c => edge_score z1 att r c) (neighbors A r) c)
    as [H1 H2].
  destruct (iget A r c =? 1)%Z eqn:Ei.
  - rewrite H1; [reflexivity |]. unfold neighbors. apply filter_In.
    split; [apply in_seq; lia | exact Ei].
  - rewrite H2; [reflexivity |]. intros Hin. apply neighbors_lt in Hin.
    destruct Hin as [_ Hin]. apply Z.eqb_eq in Hin. congruence.
Qed.

(** What the code normalizes for node [k]: the scores of the edges
    into [k] that are not 0. *)
Lemma alpha_k_spec (e_matr : matrix) (k : nat) :
  has_shape n n e_matr ->
  (forall r c, (r < n)%nat -> (c < n)%nat ->
     get e_matr r c = if (iget A r c =? 1)%Z then edge_score z1 att r c else 0) ->
  (k < n)%nat ->
  alpha_k e_matr k
  = softmax_vec (map (fun r => edge_score z1 att r k) (incoming_nonzero A z1 att k)).
Proof.
  intros [HM [HMn HMm]] Hget Hk. destruct HA as [HAwf [HAn HAm]].
  unfold alpha_k, getcol.
  replace (k <? ncols e_matr)%nat with true by (symmetry; apply Nat.ltb_lt; lia).
  cbn [bind]. f_equal.
  rewrite column_as_get by assumption. rewrite HMn.
  rewrite (map_ext_in _ (fun r => if (iget A r k =? 1)%Z
                                  then edge_score z1 att r k else 0)).
  2:{ intros r Hr. apply in_seq in Hr. apply Hget; lia. }
  rewrite filter_nonzero_ite. f_equal.
  unfold incoming_nonzero, incoming. rewrite filter_filter_andb, HAn. reflexivity.
Qed.

(** A node without an incoming edge of non-zero score stops the
    normalization: [np.max] raises on its empty score vector. *)
Lemma ND_GAT_raises (k : nat) :
  (k < n)%nat -> incoming_nonzero A z1 att k = [] ->
  ND_GAT_upto n A z1 att = Raise ValueError.
Proof.
  intros Hk Hempty.
  destruct e_of_scores as [e [Ee He]].
  destruct (e_matr_entries e He) as [em [Eem [Hem Hget]]].
  unfold ND_GAT_upto. rewrite Ee. cbn [bind].
  unfold A_scaled_upto. rewrite Eem. cbn [bind].
  unfold alpha_upto.
  rewrite (@sequence_raise _ _ (alpha_k em) (seq 0 n) ValueError k).
  - reflexivity.
  - intros y err Hy Hr. apply in_seq in Hy.
    rewrite (alpha_k_spec Hem Hget) in Hr by lia.
    apply softmax_vec_raises in Hr. exact Hr.
  - apply in_seq. lia.
  - rewrite (alpha_k_spec Hem Hget Hk), Hempty. reflexivity.
Qed.

Hypothesis Hsym : symmetric A.
Hypothesis Hin : forall k, (k < n)%nat -> incoming A k <> [].
Hypothesis Hnz : Forall (fun p => score_of z1 att p <> 0) (where_eq1 A).





End GAT.

(* ------------------------------------------------------------------ *)
(** ** GAT: the claims *)

Lemma ND_GAT_from_z1 (X W : matrix) (A : imatrix) (att z1 : matrix) :
  z1_of X W = Ok z1 -> ND_GAT X W A att = ND_GAT_upto 5 A z1 att.
Proof. intros E. unfold ND_GAT. rewrite E. reflexivity. Qed.

Lemma z1_of_ok (N F E : nat) (X W : matrix) :
  has_shape N F X -> has_shape E F W ->
  exists z1, z1_of X W = Ok z1 /\ has_shape N E z1 /\
             forall i j, (i < N)%nat ->
               get z1 i j = Rsum (map2 Rmult (row X i) (column 0 (transpose W) j)).
Proof.
  intros [HX [HXn HXf]] [HW [HWe HWf]].
  destruct (@dot_ok X (transpose W)) as [z1 [Ez [Hz _]]];
    [assumption | apply transpose_wf; assumption | cbn; congruence |].
  exists z1. split; [exact Ez |].
  cbn [transpose nrows ncols] in Hz. rewrite HXn, HWe in Hz. split; [exact Hz |].
  intros i j Hi. apply (@get_dot X (transpose W) z1 i j HX (transpose_wf HW) Ez). lia.
Qed.




Lemma leaky_relu1_0 : leaky_relu1 0 = 0.
Proof. unfold leaky_relu1. destruct (Rlt_dec 0 0); lra. Qed.


(** C2, evaluated where the code departs from it.  Node 0 has one
    incoming edge, its self-loop, and the rectified score of that edge
    is 0.  The softmax over the incoming scores would be [1]; the mask
    [!= 0] drops the edge, leaves nothing to normalize, and the layer
    raises. *)
Theorem C2_gat_zero_score_edge_is_dropped :
  exists z1,
    z1_of X_onehot W_node0_zero = Ok z1 /\
    incoming A_selfloops 0 = [0%nat] /\
    incoming_scores A_selfloops z1 att_src 0 = [0] /\
    softmax (Vec (incoming_scores A_selfloops z1 att_src 0)) = Ok (Vec [1]) /\
    incoming_nonzero A_selfloops z1 att_src 0 = [] /\
    ND_GAT X_onehot W_node0_zero A_selfloops att_src = Raise ValueError.
Proof.
  assert (HX : has_shape 5 5 X_onehot) by shape_tac.
  assert (HW : has_shape 1 5 W_node0_zero) by shape_tac.
  assert (HA : has_shape 5 5 A_selfloops) by shape_tac.
  assert (Hatt : has_shape 1 (2 * 1) att_src) by shape_tac.
  destruct (z1_of_ok HX HW) as [z1 [Ez [Hz Hget]]].
  exists z1. split; [exact Ez |]. split; [reflexivity |].
  assert (Hrow0 : row z1 0 = [0]).
  { destruct Hz as [Hzwf [Hzn Hzm]].
    rewrite (list_length1 (row z1 0) 0) by (rewrite row_length; [assumption | assumption | lia]).
    f_equal. fold (get z1 0 0). rewrite Hget by lia.
    cbn. lra. }
  assert (Hscore : edge_score z1 att_src 0 0 = 0).
  { unfold edge_score. rewrite Hrow0. cbn [app att_src row rows nth map2 Rsum fold_right].
    replace (0 * 1 + (0 * 0 + 0)) with 0 by lra. apply leaky_relu1_0. }
  assert (Hsc : incoming_scores A_selfloops z1 att_src 0 = [0]).
  { unfold incoming_scores. replace (incoming A_selfloops 0) with [0%nat] by reflexivity.
    cbn [map]. rewrite Hscore. reflexivity. }
  split; [exact Hsc |].
  split; [rewrite Hsc; apply softmax_singleton |].
  assert (Hnone : incoming_nonzero A_selfloops z1 att_src 0 = []).
  { unfold incoming_nonzero. replace (incoming A_selfloops 0) with [0%nat] by reflexivity.
    cbn [filter]. rewrite Hscore, nonzero_0. reflexivity. }
  split; [exact Hnone |].
  rewrite (@ND_GAT_from_z1 X_onehot W_node0_zero A_selfloops att_src z1 Ez).
  assert (Hk : (0 < 5)%nat) by lia.
  exact (@ND_GAT_raises 5 1 A_selfloops z1 att_src HA Hz Hatt 0 Hk Hnone).
Qed.







Lemma A_selfloops_symmetric : symmetric A_selfloops.
Proof.
  intros i j Hi Hj. cbn in Hi, Hj.
  do 5 (destruct i as [|i]; [do 5 (destruct j as [|j]; [reflexivity |]); lia |]). lia.
Qed.







(* ------------------------------------------------------------------ *)
(** ** Multi-head combination *)

Lemma flat_map_rows_length (heads : list matrix) (N E i : nat) :
  Forall (has_shape N E) heads -> (i < N)%nat ->
  length (flat_map (fun M => row M i) heads) = (length heads * E)%nat.
Proof.
  intros H Hi. induction H as [|M l [HM [HMn HMm]] Hl IH]; [reflexivity |].
  cbn [flat_map length]. rewrite length_app, IH.
  rewrite row_length by (assumption || lia). lia.
Qed.

Lemma flat_map_rows_nth (heads : list matrix) (N E i k j : nat) :
  Forall (has_shape N E) heads -> (i < N)%nat ->
  (k < length heads)%nat -> (j < E)%nat ->
  nth (k * E + j) (flat_map (fun M => row M i) heads) 0
  = get (nth k heads (zeros 0 0)) i j.
Proof.
  intros H Hi. revert k. induction H as [|M l [HM [HMn HMm]] Hl IH]; intros k Hk Hj;
    cbn [length] in Hk; [lia |].
  assert (Hrow : length (row M i) = E) by (rewrite row_length; assumption || lia).
  cbn [flat_map]. destruct k as [|k].
  - cbn [Nat.mul Nat.add nth]. rewrite app_nth1 by lia. reflexivity.
  - rewrite app_nth2 by (cbn; lia).
    replace (S k * E + j - length (row M i))%nat with (k * E + j)%nat by (cbn; lia).
    cbn [nth]. apply IH; lia.
Qed.

(** Concatenating [K] heads of [N] rows and [E] columns: [N] rows,
    [K * E] columns, and block [k] is head [k]. *)
Lemma concatenate_axis1_blocks (K N E : nat) (heads : list matrix) :
  length heads = K -> (0 < K)%nat -> Forall (has_shape N E) heads ->
  exists M,
    concatenate_axis1 heads = Ok M /\ has_shape N (K * E) M /\
    forall k i j, (k < K)%nat -> (i < N)%nat -> (j < E)%nat ->
      get M i (k * E + j) = get (nth k heads (zeros 0 0)) i j.
Proof.
  intros HK Hpos Hall. destruct heads as [|M0 rest]; [cbn in HK; lia |].
  unfold concatenate_axis1.
  destruct (Forall_inv Hall) as [HM0 [HM0n HM0m]].
  pose proof (Forall_inv_tail Hall) as Hrest.
  replace (forallb _ rest) with true.
  2:{ symmetry. apply forallb_forall. intros M HM. rewrite Forall_forall in Hrest.
      destruct (Hrest M HM) as [_ [Hn _]]. apply Nat.eqb_eq. congruence. }
  eexists. split; [reflexivity |].
  assert (Hcols : list_sum (map (@ncols R) (M0 :: rest)) = (length (M0 :: rest) * E)%nat).
  { clear -Hall. induction Hall as [|M l [_ [_ Hm]] _ IH]; [reflexivity |].
    cbn [map length]. change (list_sum (ncols M :: map (@ncols R) l))
      with (ncols M + list_sum (map (@ncols R) l))%nat.
    rewrite IH, Hm. lia. }
  split; [split; [split |] |]; cbn [rows nrows ncols].
  - rewrite length_map, length_seq. reflexivity.
  - apply Forall_map. apply Forall_forall. intros i Hi. apply in_seq in Hi.
    rewrite Hcols, HK. rewrite <- HK.
    apply flat_map_rows_length with (N := N); [assumption | lia].
  - split; [assumption | rewrite Hcols, HK; reflexivity].
  - intros k i j Hk Hi Hj. unfold get at 1, row at 1. cbn [rows].
    rewrite nth_map_seq by lia.
    apply flat_map_rows_nth with (N := N); assumption || lia.
Qed.

(** C1, evaluated where the code departs from it.  Both heads are
    [head_example], of 5 rows and 3 columns.  [concat] is the matrix of 5
    rows and 6 columns with the heads side by side.  The elementwise
    mean of the heads is [head_example] itself, a matrix with entries 1
    and 0; [average] is the 0-d value 1/5, the sum of all 30 entries
    divided by 30. *)
Theorem C1_average_is_a_scalar :
  concat_heads head_example head_example
  = Ok (mkArray2 5 6 [[1; 0; 0; 1; 0; 0]; [0; 1; 0; 0; 1; 0]; [0; 0; 1; 0; 0; 1];
                      [0; 0; 0; 0; 0; 0]; [0; 0; 0; 0; 0; 0]]) /\
  get (mean_heads 5 3 [head_example; head_example]) 0 0 = 1 /\
  get (mean_heads 5 3 [head_example; head_example]) 0 1 = 0 /\
  average head_example head_example = Scalar (1 / 5) /\
  average head_example head_example
  <> Mat (mean_heads 5 3 [head_example; head_example]).
Proof.
  split; [reflexivity |].
  split; [cbn; lra |]. split; [cbn; lra |].
  split; [| discriminate].
  unfold average. f_equal. cbn. lra.
Qed.

(* ================================================================== *)
(** * Further properties of the notebooks' code *)

(* ------------------------------------------------------------------ *)
(** ** leaky_relu and softmax *)

Lemma leaky_relu1_zero_iff (x : R) : leaky_relu1 x = 0 <-> x = 0.
Proof.
  unfold leaky_relu1. destruct (Rlt_dec 0 x); split; intros; lra.
Qed.

Lemma leaky_relu1_pos_iff (x : R) : 0 < leaky_relu1 x <-> 0 < x.
Proof.
  unfold leaky_relu1. destruct (Rlt_dec 0 x); split; intros; lra.
Qed.

Lemma get_leaky_relu (z : matrix) (i j : nat) :
  wf z -> (i < nrows z)%nat -> (j < ncols z)%nat ->
  get (leaky_relu z) i j = leaky_relu1 (get z i j).
Proof.
  intros Hwf Hi Hj. unfold get, row. cbn [leaky_relu rows].
  rewrite nth_map_lt with (d := []) by (destruct Hwf; lia).
  apply nth_map_lt. fold (row z i). rewrite row_length; assumption.
Qed.

(** X1.  [leaky_relu] keeps the shape of its argument and the sign of
    every entry: an entry of the result is 0 exactly where the argument
    is 0, and positive exactly where the argument is positive. *)
Theorem leaky_relu_keeps_shape_and_sign (z : matrix) :
  wf z ->
  wf (leaky_relu z) /\
  nrows (leaky_relu z) = nrows z /\ ncols (leaky_relu z) = ncols z /\
  forall i j, (i < nrows z)%nat -> (j < ncols z)%nat ->
    (get (leaky_relu z) i j = 0 <-> get z i j = 0) /\
    (0 < get (leaky_relu z) i j <-> 0 < get z i j).
Proof.
  intros Hwf. split; [| split; [reflexivity | split; [reflexivity |]]].
  - destruct Hwf as [Hl Hr]. split; cbn [leaky_relu rows nrows ncols].
    + rewrite length_map. assumption.
    + apply Forall_map. eapply Forall_impl; [| exact Hr].
      intros r E. cbn beta. rewrite length_map. assumption.
  - intros i j Hi Hj. rewrite get_leaky_relu by assumption.
    split; [apply leaky_relu1_zero_iff | apply leaky_relu1_pos_iff].
Qed.

Lemma leaky_relu_keeps_shape_and_sign_witness :
  let z := mkArray2 2 1 [[-3]; [0]] in
  wf (leaky_relu z) /\
  nrows (leaky_relu z) = nrows z /\ ncols (leaky_relu z) = ncols z /\
  forall i j, (i < nrows z)%nat -> (j < ncols z)%nat ->
    (get (leaky_relu z) i j = 0 <-> get z i j = 0) /\
    (0 < get (leaky_relu z) i j <-> 0 < get z i j).
Proof.
  apply (@leaky_relu_keeps_shape_and_sign (mkArray2 2 1 [[-3]; [0]])).
  split; [reflexivity | repeat constructor].
Defined.

(** X2.  [leaky_relu] is strictly increasing on every entry, hence
    one-to-one: different raw scores give different rectified scores. *)
Theorem leaky_relu1_increasing (x y : R) :
  x < y -> leaky_relu1 x < leaky_relu1 y.
Proof.
  intros H. unfold leaky_relu1.
  destruct (Rlt_dec 0 x), (Rlt_dec 0 y); lra.
Qed.

Lemma leaky_relu1_increasing_witness : leaky_relu1 (-2) < leaky_relu1 (-1).
Proof. apply (@leaky_relu1_increasing (-2) (-1)). lra. Defined.

Lemma Rsum_nonneg (l : list R) : Forall (fun x => 0 <= x) l -> 0 <= Rsum l.
Proof.
  induction 1 as [|x l Hx _ IH]; cbn [Rsum fold_right]; [lra |].
  fold (Rsum l). lra.
Qed.

Lemma Rsum_ge_member (l : list R) (y : R) :
  Forall (fun x => 0 <= x) l -> In y l -> y <= Rsum l.
Proof.
  induction 1 as [|x l Hx Hl IH]; intros Hin; [contradiction |].
  cbn [Rsum fold_right]. fold (Rsum l). pose proof (Rsum_nonneg Hl).
  destruct Hin as [-> | Hin]; [lra |]. specialize (IH Hin). lra.
Qed.

Lemma softmax_entries_range (mx : R) (v : list R) :
  Forall (fun a => 0 < a <= 1) (softmax_entries mx v).
Proof.
  unfold softmax_entries. apply Forall_map. apply Forall_forall. intros x Hx.
  set (S := Rsum (map (fun y => exp (y - mx)) v)).
  assert (Hle : exp (x - mx) <= S).
  { apply Rsum_ge_member.
    - apply Forall_map. apply Forall_forall. intros y _.
      pose proof (exp_pos (y - mx)). lra.
    - apply (in_map (fun y => exp (y - mx))). exact Hx. }
  pose proof (exp_pos (x - mx)) as Hpos.
  assert (HS : 0 < S) by lra.
  split.
  - apply Rdiv_lt_0_compat; assumption.
  - apply Rmult_le_reg_r with (r := S); [assumption |].
    unfold Rdiv. rewrite Rmult_assoc, Rinv_l by lra. lra.
Qed.

(** X3.  On a non-empty vector every entry of [softmax] lies in the
    interval (0, 1]: no weight is ever 0 or negative. *)
Theorem softmax_entries_in_unit_interval (v : list R) :
  v <> [] ->
  exists a, softmax (Vec v) = Ok (Vec a) /\ Forall (fun x => 0 < x <= 1) a.
Proof.
  intros Hv. cbn [softmax]. rewrite softmax_vec_max_of by assumption. cbn [bind].
  eexists. split; [reflexivity |]. apply softmax_entries_range.
Qed.

Lemma softmax_entries_in_unit_interval_witness :
  exists a, softmax (Vec [-1; 5]) = Ok (Vec a) /\ Forall (fun x => 0 < x <= 1) a.
Proof. apply (@softmax_entries_in_unit_interval [-1; 5]). discriminate. Defined.

Lemma exp_le_mono (x y : R) : x <= y -> exp x <= exp y.
Proof.
  intros [H | ->]; [| lra]. pose proof (exp_increasing x y H). lra.
Qed.

(** X4.  [softmax] keeps the order of the scores: an entry that is not
    smaller than another gets a weight that is not smaller. *)
Theorem softmax_keeps_order (v : list R) (i j : nat) :
  (i < length v)%nat -> (j < length v)%nat -> nth i v 0 <= nth j v 0 ->
  exists a, softmax (Vec v) = Ok (Vec a) /\ nth i a 0 <= nth j a 0.
Proof.
  intros Hi Hj Hle.
  assert (Hv : v <> []) by (destruct v; [cbn in Hi; lia | discriminate]).
  cbn [softmax]. rewrite softmax_vec_max_of by assumption. cbn [bind].
  eexists. split; [reflexivity |].
  unfold softmax_entries.
  set (mx := max_of v). set (S := Rsum (map (fun y => exp (y - mx)) v)).
  rewrite !nth_map_lt with (d := 0) by assumption.
  assert (HS : 0 < S) by (apply (Rsum_exp_pos (fun y => y - mx)); assumption).
  unfold Rdiv. apply Rmult_le_compat_r.
  - apply Rlt_le. apply Rinv_0_lt_compat. assumption.
  - apply exp_le_mono. lra.
Qed.

Lemma softmax_keeps_order_witness :
  exists a, softmax (Vec [1; 3; 2]) = Ok (Vec a) /\ nth 2 a 0 <= nth 1 a 0.
Proof.
  apply (@softmax_keeps_order [1; 3; 2] 2 1); cbn; try lia. lra.
Defined.

Lemma fold_left_Rmax_repeat (c : R) (n : nat) : fold_left Rmax (repeat c n) c = c.
Proof.
  induction n as [|n IH]; [reflexivity |].
  cbn [repeat fold_left]. rewrite Rmax_left by lra. exact IH.
Qed.

Lemma Rsum_repeat (c : R) (n : nat) : Rsum (repeat c n) = INR n * c.
Proof.
  induction n as [|n IH]; [cbn; lra |].
  cbn [repeat Rsum fold_right]. fold (Rsum (repeat c n)). rewrite IH, S_INR. lra.
Qed.

(** X5.  On equal scores [softmax] is uniform: [n + 1] copies of the
    same score get the weight [1 / (n + 1)] each, whatever the score. *)
Theorem softmax_uniform_on_equal_scores (c : R) (n : nat) :
  softmax (Vec (repeat c (S n))) = Ok (Vec (repeat (/ INR (S n)) (S n))).
Proof.
  cbn [softmax]. cbn [repeat]. rewrite softmax_vec_cons, fold_left_Rmax_repeat.
  cbn [bind]. do 2 f_equal.
  unfold softmax_entries. change (c :: repeat c n) with (repeat c (S n)).
  rewrite !map_repeat. replace (c - c) with 0 by lra. rewrite exp_0.
  rewrite Rsum_repeat. change (/ INR (S n) :: repeat (/ INR (S n)) n)
    with (repeat (/ INR (S n)) (S n)).
  f_equal. field. apply not_0_INR. lia.
Qed.

Lemma sequence_raises_in {T U : Type} (f : T -> result U) (l : list T) (e : exn) :
  sequence (map f l) = Raise e -> exists x, In x l /\ f x = Raise e.
Proof.
  induction l as [|y l IH]; cbn [map sequence]; [discriminate |].
  destruct (f y) as [a | e'] eqn:Ey; cbn [bind].
  - destruct (sequence (map f l)) as [r | e'']; cbn [bind]; [discriminate |].
    intros H. injection H as ->. destruct (IH eq_refl) as [x [Hx Ex]].
    exists x. split; [right; assumption | assumption].
  - intros H. injection H as ->. exists y. split; [left; reflexivity | assumption].
Qed.

(** X6.  [softmax] raises exactly on an empty reduction, and then a
    ValueError: on a vector when it is empty, on a matrix when it has no
    row. *)
Theorem softmax_raises_iff_empty :
  (forall v e, softmax (Vec v) = Raise e <-> v = [] /\ e = ValueError)
  /\
  (forall z e, wf z ->
     (softmax (Mat z) = Raise e <-> nrows z = 0%nat /\ e = ValueError)).
Proof.
  split.
  - intros v e. cbn [softmax]. destruct v as [|x l].
    + cbn. split; [intros H; injection H as <-; auto | intros [_ ->]; reflexivity].
    + rewrite softmax_vec_cons. cbn [bind]. split; [discriminate | intros [H _]; discriminate].
  - intros z e Hwf. cbn [softmax]. destruct (Nat.eq_dec (nrows z) 0) as [E0 | Hn].
    + unfold softmax_mat, np_max_axis0. rewrite E0. cbn.
      split; [intros H; injection H as <-; auto | intros [_ ->]; reflexivity].
    + destruct (@softmax_mat_columns z Hwf) as [a [Ea _]]; [lia |].
      rewrite Ea. cbn [bind]. split; [discriminate | intros [H _]; contradiction].
Qed.

Lemma softmax_raises_iff_empty_witness :
  softmax (Mat (mkArray2 0 3 [])) = Raise ValueError <->
  nrows (mkArray2 0 3 (@nil (list R))) = 0%nat /\ ValueError = ValueError.
Proof.
  apply (proj2 softmax_raises_iff_empty (mkArray2 0 3 []) ValueError).
  split; [reflexivity | constructor].
Defined.

(* ------------------------------------------------------------------ *)
(** ** The undirected adjacency matrix *)

Lemma iget_map_seq (n m : nat) (f : nat -> nat -> Z) (i j : nat) :
  (i < n)%nat -> (j < m)%nat ->
  iget (mkArray2 n m (map (fun i => map (f i) (seq 0 m)) (seq 0 n))) i j = f i j.
Proof.
  intros Hi Hj. unfold iget, row. cbn [rows].
  rewrite nth_map_seq by assumption. apply nth_map_seq. assumption.
Qed.

Lemma map_seq_wf {T : Type} (n m : nat) (f : nat -> nat -> T) :
  wf (mkArray2 n m (map (fun i => map (f i) (seq 0 m)) (seq 0 n))).
Proof.
  split; cbn [rows nrows ncols].
  - rewrite length_map, length_seq. reflexivity.
  - apply Forall_map. apply Forall_forall. intros i _.
    rewrite length_map, length_seq. reflexivity.
Qed.

Lemma rows_as_map_seq {T : Type} (d : T) (M : array2 T) :
  wf M ->
  rows M = map (fun i => map (fun j => nth j (row M i) d) (seq 0 (ncols M)))
               (seq 0 (nrows M)).
Proof.
  intros [Hl Hr]. rewrite <- Hl.
  rewrite <- (map_nth_seq (rows M) []) at 1.
  apply map_ext_in. intros i Hi. apply in_seq in Hi.
  fold (row M i).
  assert (E : length (row M i) = ncols M).
  { rewrite Forall_forall in Hr. apply Hr. apply nth_In. lia. }
  rewrite <- E. symmetry. apply map_nth_seq.
Qed.

Lemma Forall_entries {T : Type} (d : T) (P : T -> Prop) (M : array2 T) :
  wf M ->
  (forall i j, (i < nrows M)%nat -> (j < ncols M)%nat -> P (nth j (row M i) d)) ->
  Forall (Forall P) (rows M).
Proof.
  intros Hwf H. rewrite (rows_as_map_seq d Hwf).
  apply Forall_map. apply Forall_forall. intros i Hi. apply in_seq in Hi.
  apply Forall_map. apply Forall_forall. intros j Hj. apply in_seq in Hj.
  apply H; lia.
Qed.

Lemma binary_iget (A : imatrix) (i j : nat) :
  binary A -> iget A i j = 0%Z \/ iget A i j = 1%Z.
Proof.
  intros HA. pose proof (binary_row i HA) as Hr. unfold iget.
  destruct (Nat.lt_ge_cases j (length (row A i))) as [Hj | Hj].
  - rewrite Forall_forall in Hr. apply Hr. apply nth_In. assumption.
  - rewrite nth_overflow by assumption. left. reflexivity.
Qed.

Lemma fill_diagonal_shape (A : imatrix) (v : Z) (n : nat) :
  has_shape n n A -> has_shape n n (fill_diagonal A v).
Proof.
  intros [HA [Hn Hm]]. split; [| split; assumption].
  split; cbn [fill_diagonal rows nrows ncols].
  - rewrite length_map, length_seq. reflexivity.
  - apply Forall_map. apply Forall_forall. intros i Hi. apply in_seq in Hi.
    rewrite update_length. apply row_length; [assumption | lia].
Qed.

Lemma iget_fill_diagonal (A : imatrix) (v : Z) (n i j : nat) :
  has_shape n n A -> (i < n)%nat -> (j < n)%nat ->
  iget (fill_diagonal A v) i j = if (i =? j)%nat then v else iget A i j.
Proof.
  intros [HA [Hn Hm]] Hi Hj. unfold iget at 1, row at 1. cbn [fill_diagonal rows].
  rewrite nth_map_seq by lia.
  rewrite update_nth by (rewrite row_length; [lia | assumption | lia]).
  reflexivity.
Qed.

Lemma iget_itranspose (A : imatrix) (i j : nat) :
  wf A -> (i < ncols A)%nat -> (j < nrows A)%nat ->
  iget (itranspose A) i j = iget A j i.
Proof.
  intros [Hl _] Hi Hj. unfold iget at 1, row at 1. cbn [itranspose rows].
  rewrite nth_map_seq by assumption. unfold column.
  apply (nth_map_lt (fun r => nth i r 0%Z)). lia.
Qed.

Lemma bidx (n i : nat) : (i < n)%nat -> (if (n =? 1)%nat then 0%nat else i) = i.
Proof. intros H. destruct (Nat.eqb_spec n 1); lia. Qed.

Lemma iget_set_where_gt1 (v : Z) (A : imatrix) (i j : nat) :
  wf A -> (i < nrows A)%nat -> (j < ncols A)%nat ->
  iget (set_where_gt1 v A) i j = if (1 <? iget A i j)%Z then v else iget A i j.
Proof.
  intros HA Hi Hj. unfold iget at 1, row at 1. cbn [set_where_gt1 rows].
  rewrite nth_map_lt with (d := []) by (destruct HA; lia).
  fold (row A i).
  apply (nth_map_lt (fun a => if (1 <? a)%Z then v else a)).
  rewrite row_length; assumption.
Qed.

Lemma set_where_gt1_shape (v : Z) (A : imatrix) (n m : nat) :
  has_shape n m A -> has_shape n m (set_where_gt1 v A).
Proof.
  intros [[Hl Hr] [Hn Hm]]. split; [| split; assumption].
  split; cbn [set_where_gt1 rows nrows ncols].
  - rewrite length_map. assumption.
  - apply Forall_map. eapply Forall_impl; [| exact Hr].
    intros r E. cbn beta. rewrite length_map. assumption.
Qed.

(** The entries of [A_und]: the sum of the filled matrix and of its
    transpose, capped at 1. *)
Lemma A_und_entries (n : nat) (A : imatrix) :
  has_shape n n A ->
  exists A_und,
    A_und_of A = Ok A_und /\ has_shape n n A_und /\
    forall i j, (i < n)%nat -> (j < n)%nat ->
      iget A_und i j
      = let s := ((if (i =? j)%nat then 1 else iget A i j)
                  + (if (j =? i)%nat then 1 else iget A j i))%Z in
        if (1 <? s)%Z then 1%Z else s.
Proof.
  intros HA. pose proof (fill_diagonal_shape 1 HA) as HF.
  destruct HF as [HFwf [HFn HFm]].
  unfold A_und_of, iadd. cbn [itranspose nrows ncols].
  rewrite HFn, HFm. unfold bdim. rewrite Nat.eqb_refl. cbn [bind].
  set (S := mkArray2 n n _).
  assert (HS : has_shape n n S) by (split; [apply map_seq_wf | split; reflexivity]).
  exists (set_where_gt1 1 S). split; [reflexivity |].
  split; [apply set_where_gt1_shape; exact HS |].
  intros i j Hi Hj.
  rewrite iget_set_where_gt1 by (try apply HS; cbn; assumption).
  unfold S. rewrite iget_map_seq by assumption.
  rewrite !bidx by assumption.
  rewrite iget_itranspose by (try assumption; lia).
  rewrite !(iget_fill_diagonal 1 HA) by assumption.
  reflexivity.
Qed.

Lemma A_und_facts (n : nat) (A : imatrix) :
  has_shape n n A -> binary A ->
  exists A_und,
    A_und_of A = Ok A_und /\ has_shape n n A_und /\
    binary A_und /\ symmetric A_und /\
    forall i j, (i < n)%nat -> (j < n)%nat ->
      (iget A_und i j = 1%Z <-> i = j \/ iget A i j = 1%Z \/ iget A j i = 1%Z).
Proof.
  intros HA Hb. destruct (A_und_entries HA) as [Au [E [HAu Hget]]].
  exists Au. split; [exact E |]. split; [exact HAu |].
  destruct HAu as [Hwf [Hn Hm]].
  assert (Hcase : forall i j, (i < n)%nat -> (j < n)%nat ->
            (iget Au i j = 0%Z \/ iget Au i j = 1%Z) /\
            iget Au i j = iget Au j i /\
            (iget Au i j = 1%Z <-> i = j \/ iget A i j = 1%Z \/ iget A j i = 1%Z)).
  { intros i j Hi Hj. rewrite (Hget i j Hi Hj), (Hget j i Hj Hi). cbn zeta.
    destruct (binary_iget i j Hb) as [Ea | Ea], (binary_iget j i Hb) as [Eb | Eb];
      rewrite Ea, Eb;
      destruct (Nat.eqb_spec i j) as [Eij | Nij];
      destruct (Nat.eqb_spec j i) as [Eji | Nji]; try congruence; cbn;
      (split; [auto | split; [reflexivity |]]); split; intros; auto;
      try discriminate;
      repeat match goal with H : _ \/ _ |- _ => destruct H end;
      congruence. }
  split; [| split].
  - unfold binary. apply (Forall_entries 0%Z); [assumption |].
    intros i j Hi Hj. apply (Hcase i j); lia.
  - intros i j Hi Hj. apply (Hcase i j); lia.
  - intros i j Hi Hj. apply (Hcase i j); assumption.
Qed.

(** X7.  From a square matrix of zeros and ones, the construction of
    [A_und] returns a symmetric matrix of zeros and ones of the same
    shape with a 1 in [(i, j)] exactly when [i = j] or the drawn matrix
    has a 1 in [(i, j)] or in [(j, i)]. *)
Theorem A_und_is_symmetric_closure (n : nat) (A : imatrix) :
  has_shape n n A -> binary A ->
  exists A_und,
    A_und_of A = Ok A_und /\ has_shape n n A_und /\
    binary A_und /\ symmetric A_und /\
    forall i j, (i < n)%nat -> (j < n)%nat ->
      (iget A_und i j = 1%Z <-> i = j \/ iget A i j = 1%Z \/ iget A j i = 1%Z).
Proof. intros HA Hb. exact (A_und_facts HA Hb). Qed.

Lemma A_und_is_symmetric_closure_witness :
  exists A_und,
    A_und_of A_directed = Ok A_und /\ has_shape 5 5 A_und /\
    binary A_und /\ symmetric A_und /\
    forall i j, (i < 5)%nat -> (j < 5)%nat ->
      (iget A_und i j = 1%Z <->
       i = j \/ iget A_directed i j = 1%Z \/ iget A_directed j i = 1%Z).
Proof.
  apply (@A_und_is_symmetric_closure 5 A_directed).
  - shape_tac.
  - unfold binary. cbn [rows A_directed].
    repeat (apply Forall_cons || apply Forall_nil); auto.
Defined.

Lemma self_loop_neighbor (n : nat) (A : imatrix) (i : nat) :
  has_shape n n A -> (i < n)%nat -> iget A i i = 1%Z ->
  In i (neighbors A i) /\ In i (incoming A i).
Proof.
  intros [_ [Hn Hm]] Hi E. unfold neighbors, incoming.
  split; apply filter_In; (split; [apply in_seq; lia | apply Z.eqb_eq; exact E]).
Qed.

(** X8.  On the adjacency matrix the notebook builds, the degree-
    normalized aggregation never meets a zero degree: every node is its
    own neighbor, every degree is the number of neighbors and at least
    1, and every output row is the mean of the neighbors' projected
    rows. *)
Theorem GCN_on_A_und_is_neighbor_mean (n E : nat) (A : imatrix) (L_0 : matrix) :
  has_shape n n A -> binary A -> has_shape n E L_0 ->
  exists A_und out,
    A_und_of A = Ok A_und /\ ND_GCN_of A_und L_0 = Ok out /\ has_shape n E out /\
    forall i, (i < n)%nat ->
      In i (neighbors A_und i) /\
      (1 <= nth i (D_of A_und) 0)%Z /\
      nth i (D_of A_und) 0%Z = Z.of_nat (length (neighbors A_und i)) /\
      row out i = vscale (/ IZR (nth i (D_of A_und) 0%Z))
                         (vsum E (map (row L_0) (neighbors A_und i))).
Proof.
  intros HA Hb [HL [HLn HLm]].
  destruct (A_und_facts HA Hb) as [Au [EAu [HAu [HbAu [_ Hiff]]]]].
  pose proof HAu as [HAuwf [HAun HAum]].
  destruct (@ND_GCN_rows Au L_0) as [out [Eo [Ho Hrows]]];
    [assumption | assumption | congruence |].
  exists Au, out. split; [exact EAu |]. split; [exact Eo |].
  rewrite HAun, HLm in Ho. split; [exact Ho |].
  intros i Hi.
  assert (Hself : In i (neighbors Au i)).
  { apply (self_loop_neighbor HAu Hi). apply (Hiff i i Hi Hi). left. reflexivity. }
  assert (Hi' : (i < nrows Au)%nat) by lia.
  assert (Hd : nth i (D_of Au) 0%Z = Z.of_nat (length (neighbors Au i))).
  { rewrite (D_of_nth HAuwf Hi'), (binary_row_sum (binary_row i HbAu)).
    rewrite (neighbors_row HAuwf Hi'). reflexivity. }
  split; [exact Hself |]. split; [| split; [exact Hd |]].
  - rewrite Hd. destruct (neighbors Au i); [contradiction | cbn [length]; lia].
  - rewrite (Hrows i Hi'). f_equal. rewrite HLm.
    rewrite vecmat_binary_row.
    + rewrite <- (neighbors_row HAuwf Hi'). reflexivity.
    + rewrite (row_length HAuwf Hi'). destruct HL. congruence.
    + rewrite <- HLm. apply HL.
    + apply binary_row. assumption.
Qed.

Lemma GCN_on_A_und_witness :
  exists A_und out,
    A_und_of A_directed = Ok A_und /\ ND_GCN_of A_und L_0_example = Ok out /\
    has_shape 5 1 out /\
    forall i, (i < 5)%nat ->
      In i (neighbors A_und i) /\
      (1 <= nth i (D_of A_und) 0)%Z /\
      nth i (D_of A_und) 0%Z = Z.of_nat (length (neighbors A_und i)) /\
      row out i = vscale (/ IZR (nth i (D_of A_und) 0%Z))
                         (vsum 1 (map (row L_0_example) (neighbors A_und i))).
Proof.
  apply (@GCN_on_A_und_is_neighbor_mean 5 1 A_directed L_0_example).
  - shape_tac.
  - unfold binary. cbn [rows A_directed].
    repeat (apply Forall_cons || apply Forall_nil); auto.
  - shape_tac.
Defined.



(* ------------------------------------------------------------------ *)
(** ** One-hot features *)

Lemma row_np_eye (n p : nat) :
  (p < n)%nat ->
  row (np_eye n n) p = map (fun j => if (p =? j)%nat then 1 else 0) (seq 0 n).
Proof.
  intros Hp. unfold row. cbn [np_eye rows].
  rewrite nth_map_seq by assumption. reflexivity.
Qed.

(** Multiplying by shuffled one-hot rows looks rows up. *)
Lemma dot_onehot (n E : nat) (perm : list nat) (M : matrix) :
  has_shape n E M -> length perm = n -> Forall (fun p => (p < n)%nat) perm ->
  dot (X_of n perm) M = Ok (mkArray2 n E (map (row M) perm)).
Proof.
  intros [[Hl Hr] [Hn Hm]] Hlen Hperm. unfold dot, X_of, shuffle.
  cbn [np_eye nrows ncols rows]. rewrite Hn, Nat.eqb_refl, Hm. do 2 f_equal.
  rewrite map_map. apply map_ext_in. intros p Hp.
  rewrite Forall_forall in Hperm. specialize (Hperm p Hp).
  fold (np_eye n n). rewrite row_np_eye by assumption.
  rewrite Hm in Hr.
  rewrite (@vecmat_diag_row E n p 1 (rows M)) by (congruence || assumption).
  apply vscale_one.
Qed.

(** X10.  With the shuffled one-hot features, the projection of
    rgcn.ipynb is a row lookup: [L_0 = X.dot(W)] has the rows of [W] in
    the order of the shuffle, [L_0 = W[perm]]. *)
Theorem L_0_of_onehot_is_row_lookup (n E : nat) (perm : list nat) (W : matrix) :
  has_shape n E W -> length perm = n -> Forall (fun p => (p < n)%nat) perm ->
  exists L_0,
    L_0_of (X_of n perm) W = Ok L_0 /\ take_rows W perm = Ok L_0 /\
    has_shape n E L_0 /\
    forall i, (i < n)%nat -> row L_0 i = row W (nth i perm 0%nat).
Proof.
  intros HW Hlen Hperm. exists (mkArray2 n E (map (row W) perm)).
  unfold L_0_of. rewrite (dot_onehot HW Hlen Hperm).
  destruct HW as [HWwf [Hn Hm]].
  split; [reflexivity |]. split; [| split].
  - rewrite take_rows_ok by (rewrite Hn; assumption). rewrite Hlen, Hm. reflexivity.
  - split; [split |]; cbn [rows nrows ncols]; [| | split; reflexivity].
    + rewrite length_map. assumption.
    + apply Forall_map. apply Forall_forall. intros p Hp.
      rewrite Forall_forall in Hperm. rewrite row_length; (assumption || (rewrite Hn; auto)).
  - intros i Hi. unfold row at 1. cbn [rows]. apply nth_map_lt. lia.
Qed.

Lemma L_0_of_onehot_witness :
  exists L_0,
    L_0_of (X_of 5 perm_notebook) L_0_example = Ok L_0 /\
    take_rows L_0_example perm_notebook = Ok L_0 /\
    has_shape 5 1 L_0 /\
    forall i, (i < 5)%nat -> row L_0 i = row L_0_example (nth i perm_notebook 0%nat).
Proof.
  apply (@L_0_of_onehot_is_row_lookup 5 1 perm_notebook L_0_example).
  - shape_tac.
  - reflexivity.
  - unfold perm_notebook. repeat constructor.
Defined.

(** X11.  With the shuffled one-hot features, the projection of
    gat.ipynb is a column lookup: row [i] of [z1 = X.dot(W.T)] is column
    [perm[i]] of [W]. *)
Theorem z1_of_onehot_is_column_lookup (n E : nat) (perm : list nat) (W : matrix) :
  has_shape E n W -> length perm = n -> Forall (fun p => (p < n)%nat) perm ->
  exists z1,
    z1_of (X_of n perm) W = Ok z1 /\ has_shape n E z1 /\
    forall i, (i < n)%nat -> row z1 i = column 0 W (nth i perm 0%nat).
Proof.
  intros [HWwf [He Hn]] Hlen Hperm.
  assert (HT : has_shape n E (transpose W)).
  { split; [apply transpose_wf; assumption | split; assumption]. }
  exists (mkArray2 n E (map (row (transpose W)) perm)).
  unfold z1_of. rewrite (dot_onehot HT Hlen Hperm).
  split; [reflexivity |]. split.
  - split; [split |]; cbn [rows nrows ncols]; [| | split; reflexivity].
    + rewrite length_map. assumption.
    + apply Forall_map. apply Forall_forall. intros p Hp.
      rewrite Forall_forall in Hperm. destruct HT as [HTwf [HTn HTm]].
      rewrite row_length; (assumption || (rewrite HTn; auto)).
  - intros i Hi. unfold row at 1. cbn [rows].
    rewrite nth_map_lt with (d := 0%nat) by lia.
    unfold row. cbn [transpose rows]. apply nth_map_seq.
    rewrite Hn. rewrite Forall_forall in Hperm. apply Hperm. apply nth_In. lia.
Qed.

Lemma z1_of_onehot_witness :
  exists z1,
    z1_of (X_of 5 perm_notebook) W_node0_zero = Ok z1 /\ has_shape 5 1 z1 /\
    forall i, (i < 5)%nat -> row z1 i = column 0 W_node0_zero (nth i perm_notebook 0%nat).
Proof.
  apply (@z1_of_onehot_is_column_lookup 5 1 perm_notebook W_node0_zero).
  - shape_tac.
  - reflexivity.
  - unfold perm_notebook. repeat constructor.
Defined.

(* ------------------------------------------------------------------ *)
(** ** GAT: the edge list and the scores *)

Lemma where_eq1_NoDup (A : imatrix) : NoDup (where_eq1 A).
Proof.
  rewrite where_eq1_blocks.
  apply blocks_NoDup; [apply seq_NoDup | apply neighbors_NoDup].
Qed.

Lemma where_eq1_length (A : imatrix) :
  length (where_eq1 A)
  = list_sum (map (fun r => length (neighbors A r)) (seq 0 (nrows A))).
Proof.
  rewrite where_eq1_blocks, length_flat_map. f_equal.
  apply map_ext. intros r. apply length_map.
Qed.

Lemma fold_Zadd_map_of_nat (l : list nat) :
  fold_right Z.add 0%Z (map Z.of_nat l) = Z.of_nat (list_sum l).
Proof.
  induction l as [|x l IH]; [reflexivity |].
  change (list_sum (x :: l)) with (x + list_sum l)%nat.
  cbn [map fold_right]. rewrite IH. lia.
Qed.

(** X12.  The edge list [np.where(A == 1)] holds exactly the
    coordinates of the entries equal to 1, each once; on a matrix of
    zeros and ones its length is the sum of the degrees. *)
Theorem where_eq1_is_the_set_of_ones (A : imatrix) :
  NoDup (where_eq1 A) /\
  (forall r c, In (r, c) (where_eq1 A) <->
               (r < nrows A)%nat /\ (c < ncols A)%nat /\ iget A r c = 1%Z) /\
  (wf A -> binary A ->
   Z.of_nat (length (where_eq1 A)) = fold_right Z.add 0%Z (D_of A)).
Proof.
  split; [apply where_eq1_NoDup |]. split.
  - intros r c. split.
    + intros H. pose proof (where_eq1_range _ _ H) as [Hr Hc]. cbn [fst snd] in *.
      split; [assumption |]. split; [assumption |].
      rewrite where_eq1_blocks in H. apply in_flat_map in H.
      destruct H as [r' [_ H]]. apply in_map_iff in H.
      destruct H as [c' [E Hc']]. injection E as -> ->.
      apply neighbors_lt in Hc'. apply Hc'.
    + intros [Hr [Hc E]]. apply In_where_eq1; assumption.
  - intros Hwf Hb. rewrite where_eq1_length, <- fold_Zadd_map_of_nat.
    f_equal. unfold D_of. rewrite map_map.
    destruct Hwf as [Hl Hrows].
    rewrite <- (map_seq_nth (fun r => fold_right Z.add 0%Z r) (rows A) []).
    rewrite Hl.
    apply map_ext_in. intros r Hr. apply in_seq in Hr.
    fold (row A r). rewrite (binary_row_sum (binary_row r Hb)).
    rewrite (@neighbors_row A r) by (try split; assumption || lia). reflexivity.
Qed.

Lemma where_eq1_is_the_set_of_ones_witness :
  Z.of_nat (length (where_eq1 A_notebook)) = fold_right Z.add 0%Z (D_of A_notebook).
Proof.
  apply (proj2 (proj2 (where_eq1_is_the_set_of_ones A_notebook))).
  - split; [reflexivity | repeat constructor].
  - unfold binary. cbn [rows A_notebook].
    repeat (apply Forall_cons || apply Forall_nil); auto.
Defined.

(** X13.  [z2] has one row per edge, which is what the first assertion
    of the cell tests, and twice the embedding width; row [k] is the
    projected row of the source of edge [k] followed by that of its
    destination. *)
Theorem z2_has_one_row_per_edge (n E : nat) (A : imatrix) (z1 : matrix) :
  has_shape n n A -> has_shape n E z1 ->
  exists z2,
    z2_of A z1 = Ok z2 /\
    has_shape (length (where_eq1 A)) (2 * E) z2 /\
    forall k, (k < length (where_eq1 A))%nat ->
      row z2 k = row z1 (fst (nth k (where_eq1 A) (0, 0)%nat))
                 ++ row z1 (snd (nth k (where_eq1 A) (0, 0)%nat)).
Proof.
  intros [HAwf [HAn HAm]] [Hzwf [Hzn Hzm]].
  unfold z2_of.
  rewrite take_rows_ok.
  2:{ apply Forall_map. apply Forall_forall. intros p Hp.
      apply where_eq1_range in Hp. lia. }
  cbn [bind]. rewrite take_rows_ok.
  2:{ apply Forall_map. apply Forall_forall. intros p Hp.
      apply where_eq1_range in Hp. lia. }
  cbn [bind]. unfold concatenate_axis1.
  cbn [forallb nrows]. rewrite !length_map, Nat.eqb_refl. cbn [andb].
  eexists. split; [reflexivity |].
  assert (Hrow : forall k, (k < length (where_eq1 A))%nat ->
     flat_map (fun M : array2 R => row M k)
       [mkArray2 (length (where_eq1 A)) (ncols z1) (map (row z1) (map fst (where_eq1 A)));
        mkArray2 (length (where_eq1 A)) (ncols z1) (map (row z1) (map snd (where_eq1 A)))]
     = row z1 (fst (nth k (where_eq1 A) (0, 0)%nat))
       ++ row z1 (snd (nth k (where_eq1 A) (0, 0)%nat))).
  { intros k Hk. cbn [flat_map]. rewrite app_nil_r. unfold row at 1 3. cbn [rows].
    rewrite !map_map.
    rewrite !nth_map_lt with (d := (0, 0)%nat) by assumption. reflexivity. }
  split; [split; [split |] |]; cbn [rows nrows ncols].
  - rewrite length_map, length_seq. reflexivity.
  - apply Forall_map. apply Forall_forall. intros k Hk. apply in_seq in Hk.
    rewrite Hrow by lia. rewrite length_app.
    pose proof (@where_eq1_range A (nth k (where_eq1 A) (0, 0)%nat)) as Hr.
    destruct Hr as [Hr1 Hr2]; [apply nth_In; lia |].
    rewrite !row_length by (assumption || lia). cbn. lia.
  - split; [reflexivity | cbn; lia].
  - intros k Hk. unfold row at 1. cbn [rows].
    rewrite nth_map_seq by assumption. apply Hrow. assumption.
Qed.

Lemma z2_has_one_row_per_edge_witness :
  exists z2,
    z2_of A_notebook z1_ones = Ok z2 /\
    has_shape (length (where_eq1 A_notebook)) (2 * 1) z2 /\
    forall k, (k < length (where_eq1 A_notebook))%nat ->
      row z2 k = row z1_ones (fst (nth k (where_eq1 A_notebook) (0, 0)%nat))
                 ++ row z1_ones (snd (nth k (where_eq1 A_notebook) (0, 0)%nat)).
Proof.
  apply (@z2_has_one_row_per_edge 5 1 A_notebook z1_ones); shape_tac.
Defined.

(** X14.  On a graph of five edges at least, so that the test on
    [z2[4, :]] passes: the dense score matrix [e_matr] has the shape of
    the adjacency matrix and holds the rectified score of the edge from
    [r] to [c] at [(r, c)] and 0 where there is no edge. *)
Theorem e_matr_holds_the_edge_scores (n E : nat) (A : imatrix) (z1 att : matrix) :
  has_shape n n A -> has_shape n E z1 -> has_shape 1 (2 * E) att ->
  (5 <= length (where_eq1 A))%nat ->
  exists e e_matr,
    e_of A z1 att = Ok e /\ e_matr_of A e = Ok e_matr /\ has_shape n n e_matr /\
    forall r c, (r < n)%nat -> (c < n)%nat ->
      get e_matr r c = if (iget A r c =? 1)%Z then edge_score z1 att r c else 0.
Proof.
  intros HA Hz Hatt Hedges.
  destruct (e_of_scores HA Hz Hatt) as [e [Ee He]].
  destruct (@e_matr_entries n A z1 att HA e He) as [em [Eem [Hem Hget]]].
  exists e, em. repeat (split; [assumption |]). exact Hget.
Qed.

Lemma e_matr_holds_the_edge_scores_witness :
  exists e e_matr,
    e_of A_notebook L_0_example att_src = Ok e /\
    e_matr_of A_notebook e = Ok e_matr /\ has_shape 5 5 e_matr /\
    forall r c, (r < 5)%nat -> (c < 5)%nat ->
      get e_matr r c
      = if (iget A_notebook r c =? 1)%Z
        then edge_score L_0_example att_src r c else 0.
Proof.
  apply (@e_matr_holds_the_edge_scores 5 1 A_notebook L_0_example att_src).
  - shape_tac.
  - shape_tac.
  - shape_tac.
  - apply Nat.leb_le. reflexivity.
Defined.

(** X15.  On a graph of five edges at least, so that the test on
    [z2[4, :]] passes: what the code normalizes for node [k] is the
    vector of the scores of the edges into [k] that are not 0, by
    ascending source: when there is one, [alpha_k] is its softmax, with
    one weight per such edge and sum 1; when there is none, [alpha_k]
    raises. *)
Theorem alpha_k_normalizes_nonzero_incoming
        (n E : nat) (A : imatrix) (z1 att : matrix) (k : nat) :
  has_shape n n A -> has_shape n E z1 -> has_shape 1 (2 * E) att ->
  (5 <= length (where_eq1 A))%nat -> (k < n)%nat ->
  exists e e_matr,
    e_of A z1 att = Ok e /\ e_matr_of A e = Ok e_matr /\
    alpha_k e_matr k
    = softmax_vec (map (fun r => edge_score z1 att r k) (incoming_nonzero A z1 att k)) /\
    (incoming_nonzero A z1 att k = [] -> alpha_k e_matr k = Raise ValueError) /\
    (incoming_nonzero A z1 att k <> [] ->
     exists a, alpha_k e_matr k = Ok a /\
               length a = length (incoming_nonzero A z1 att k) /\ Rsum a = 1).
Proof.
  intros HA Hz Hatt Hedges Hk.
  destruct (e_of_scores HA Hz Hatt) as [e [Ee He]].
  destruct (@e_matr_entries n A z1 att HA e He) as [em [Eem [Hem Hget]]].
  exists e, em. split; [exact Ee |]. split; [exact Eem |].
  rewrite (@alpha_k_spec n A z1 att HA em k Hem Hget Hk).
  split; [reflexivity |]. split.
  - intros ->. reflexivity.
  - intros Hne.
    set (sc := map (fun r => edge_score z1 att r k) (incoming_nonzero A z1 att k)).
    assert (Hsc : sc <> []).
    { unfold sc. intros E0. apply map_eq_nil in E0. contradiction. }
    rewrite (softmax_vec_max_of Hsc). eexists. split; [reflexivity |].
    split; [| apply softmax_entries_sum; assumption].
    rewrite softmax_entries_length. unfold sc. apply length_map.
Qed.

Lemma alpha_k_normalizes_nonzero_incoming_witness :
  exists e e_matr,
    e_of A_notebook L_0_example att_src = Ok e /\
    e_matr_of A_notebook e = Ok e_matr /\
    alpha_k e_matr 3
    = softmax_vec (map (fun r => edge_score L_0_example att_src r 3)
                       (incoming_nonzero A_notebook L_0_example att_src 3)) /\
    (incoming_nonzero A_notebook L_0_example att_src 3 = [] ->
     alpha_k e_matr 3 = Raise ValueError) /\
    (incoming_nonzero A_notebook L_0_example att_src 3 <> [] ->
     exists a, alpha_k e_matr 3 = Ok a /\
               length a = length (incoming_nonzero A_notebook L_0_example att_src 3) /\
               Rsum a = 1).
Proof.
  apply (@alpha_k_normalizes_nonzero_incoming 5 1 A_notebook L_0_example att_src 3).
  - shape_tac.
  - shape_tac.
  - shape_tac.
  - apply Nat.leb_le. reflexivity.
  - lia.
Defined.

(* ------------------------------------------------------------------ *)
(** ** GAT: a zero score never goes unnoticed *)












(* ------------------------------------------------------------------ *)
(** ** GAT: the normalized matrix and the output *)







Lemma vadd_vscale (a b : R) (v : list R) :
  vadd (vscale a v) (vscale b v) = vscale (a + b) v.
Proof.
  induction v as [|x v IH]; [reflexivity |].
  cbn. f_equal; [lra | exact IH].
Qed.




(* ------------------------------------------------------------------ *)
(** ** GCN: the degree normalization *)

Lemma get_D_rec (A : imatrix) (i : nat) :
  wf A -> (i < nrows A)%nat ->
  get (D_rec_of A) i i = / IZR (nth i (D_of A) 0%Z).
Proof.
  intros [Hl _] Hi. unfold get, row, D_rec_of. cbn [np_diag rows].
  rewrite length_map, D_of_length, Hl.
  rewrite nth_map_seq by assumption. rewrite nth_map_seq by assumption.
  rewrite Nat.eqb_refl.
  apply (nth_map_lt (fun d => / IZR d)). rewrite D_of_length. lia.
Qed.

(** X19.  Where no degree is zero, the assertion that closes cell 4
    holds at every entry, not only at (0, 0): entry [(i, j)] of [ND_GCN]
    is entry [(i, j)] of [ND_GNN] times the diagonal entry
    [D_rec[i, i]], the reciprocal of the degree of node [i]. *)
Theorem ND_GCN_scales_ND_GNN_rows (A : imatrix) (L_0 : matrix) :
  wf A -> wf L_0 -> ncols A = nrows L_0 ->
  Forall (fun d => d <> 0%Z) (D_of A) ->
  exists ND_GNN ND_GCN,
    ND_GNN_of A L_0 = Ok ND_GNN /\ ND_GCN_of A L_0 = Ok ND_GCN /\
    forall i j, (i < nrows A)%nat ->
      get ND_GCN i j = get ND_GNN i j * get (D_rec_of A) i i /\
      get (D_rec_of A) i i = / IZR (nth i (D_of A) 0%Z).
Proof.
  intros HA HL E Hdeg.
  destruct (@dot_ok (astype_float A) L_0) as [G [EG [_ HGrows]]];
    [apply astype_float_wf; assumption | assumption | exact E |].
  destruct (ND_GCN_rows HA HL E) as [out [Eo [_ Hrows]]].
  exists G, out. split; [exact EG |]. split; [exact Eo |].
  intros i j Hi. rewrite (get_D_rec HA Hi). split; [| reflexivity].
  unfold get. rewrite (Hrows i Hi), vscale_nth.
  unfold row at 2. rewrite HGrows. cbn [astype_float rows].
  rewrite nth_map_lt with (d := []) by (rewrite length_map; destruct HA; lia).
  rewrite nth_map_lt with (d := []) by (destruct HA; lia).
  fold (row A i). lra.
Qed.

Lemma ND_GCN_scales_ND_GNN_rows_witness :
  exists ND_GNN ND_GCN,
    ND_GNN_of A_notebook L_0_example = Ok ND_GNN /\
    ND_GCN_of A_notebook L_0_example = Ok ND_GCN /\
    forall i j, (i < nrows A_notebook)%nat ->
      get ND_GCN i j = get ND_GNN i j * get (D_rec_of A_notebook) i i /\
      get (D_rec_of A_notebook) i i = / IZR (nth i (D_of A_notebook) 0%Z).
Proof.
  apply (@ND_GCN_scales_ND_GNN_rows A_notebook L_0_example).
  - split; [reflexivity | repeat constructor].
  - split; [reflexivity | repeat constructor].
  - reflexivity.
  - cbv [D_of A_notebook rows map fold_right]. repeat constructor; discriminate.
Defined.

Lemma vsum_const (E : nat) (v : list R) (l : list nat) :
  length v = E -> vsum E (map (fun _ => v) l) = vscale (INR (length l)) v.
Proof.
  intros Hv. induction l as [|k l IH].
  - cbn [map vsum fold_right length INR]. rewrite vscale_zero, Hv. reflexivity.
  - cbn [map vsum fold_right]. fold (vsum E (map (fun _ => v) l)). rewrite IH.
    rewrite <- (vscale_one v) at 1. rewrite vadd_vscale. f_equal.
    change (length (k :: l)) with (S (length l)). rewrite S_INR. lra.
Qed.

Lemma vscale_vscale (a b : R) (v : list R) : vscale a (vscale b v) = vscale (a * b) v.
Proof.
  unfold vscale. rewrite map_map. apply map_ext. intros x. lra.
Qed.

(** X20.  The degree-normalized aggregation leaves constant features
    alone: on a square adjacency matrix of zeros and ones without zero
    degree, when every node has the same projected row [v], every
    output row is [v]. *)
Theorem ND_GCN_keeps_constant_features
        (n E : nat) (A : imatrix) (L_0 : matrix) (v : list R) :
  has_shape n n A -> binary A -> has_shape n E L_0 ->
  Forall (fun d => d <> 0%Z) (D_of A) ->
  (forall j, (j < n)%nat -> row L_0 j = v) ->
  exists out,
    ND_GCN_of A L_0 = Ok out /\ has_shape n E out /\
    forall i, (i < n)%nat -> row out i = v.
Proof.
  intros [HA [HAn HAm]] Hb [HL [HLn HLm]] Hdeg Hconst.
  destruct (@ND_GCN_rows A L_0) as [out [Eo [Ho Hrows]]];
    [assumption | assumption | congruence |].
  exists out. split; [exact Eo |]. rewrite HAn, HLm in Ho. split; [exact Ho |].
  intros i Hi. assert (Hi' : (i < nrows A)%nat) by lia.
  rewrite (Hrows i Hi'), HLm.
  rewrite vecmat_binary_row;
    [| rewrite (row_length HA Hi'); destruct HL; congruence
     | rewrite <- HLm; apply HL
     | apply binary_row; assumption].
  rewrite <- (neighbors_row HA Hi').
  assert (Hv : length v = E).
  { rewrite <- (Hconst i Hi). rewrite row_length; [assumption | assumption | lia]. }
  rewrite (map_ext_in (fun k => nth k (rows L_0) []) (fun _ => v)).
  2:{ intros j Hj. apply neighbors_lt in Hj. apply (Hconst j). lia. }
  rewrite (@vsum_const E v (neighbors A i) Hv), vscale_vscale.
  assert (Hd : nth i (D_of A) 0%Z = Z.of_nat (length (neighbors A i))).
  { rewrite (D_of_nth HA Hi'), (binary_row_sum (binary_row i Hb)).
    rewrite (neighbors_row HA Hi'). reflexivity. }
  assert (Hnz : nth i (D_of A) 0%Z <> 0%Z).
  { rewrite Forall_forall in Hdeg. apply Hdeg. apply nth_In.
    rewrite D_of_length. destruct HA. lia. }
  rewrite Hd, <- INR_IZR_INZ.
  replace (/ INR (length (neighbors A i)) * INR (length (neighbors A i))) with 1.
  - apply vscale_one.
  - field. apply not_0_INR. intros E0. apply Hnz. rewrite Hd, E0. reflexivity.
Qed.

Lemma ND_GCN_keeps_constant_features_witness :
  exists out,
    ND_GCN_of A_notebook z1_ones = Ok out /\ has_shape 5 1 out /\
    forall i, (i < 5)%nat -> row out i = [1].
Proof.
  apply (@ND_GCN_keeps_constant_features 5 1 A_notebook z1_ones [1]).
  - shape_tac.
  - unfold binary. cbn [rows A_notebook].
    repeat (apply Forall_cons || apply Forall_nil); auto.
  - shape_tac.
  - cbv [D_of A_notebook rows map fold_right]. repeat constructor; discriminate.
  - intros j Hj. do 5 (destruct j as [|j]; [reflexivity |]). lia.
Defined.

(* ------------------------------------------------------------------ *)
(** ** R-GCN: the sum over the relations *)

Lemma madd_shape (n m : nat) (P Q : matrix) :
  has_shape n m P -> has_shape n m Q -> has_shape n m (madd P Q).
Proof.
  intros [[HPl HPr] [HPn HPm]] [[HQl HQr] [HQn HQm]].
  split; [| split; assumption]. split; cbn [madd rows nrows ncols].
  - rewrite map2_length. lia.
  - rewrite HPm in *. rewrite HQm in *. clear -HPr HQr.
    revert HQr. generalize (rows Q). induction HPr as [|u us Hu _ IH];
      intros [|v vs] Hq; cbn [map2]; constructor.
    + apply vadd_length; [assumption | apply (Forall_inv Hq)].
    + apply IH. apply (Forall_inv_tail Hq).
Qed.

Lemma get_madd (n m : nat) (P Q : matrix) (i j : nat) :
  has_shape n m P -> has_shape n m Q -> (i < n)%nat ->
  get (madd P Q) i j = get P i j + get Q i j.
Proof.
  intros [HP [HPn HPm]] [HQ [HQn HQm]] Hi.
  unfold get, row at 1. cbn [madd rows].
  rewrite (map2_nth vadd _ _ [] [] []) by (destruct HP, HQ; lia).
  fold (row P i). fold (row Q i).
  apply vadd_nth. rewrite !row_length by (assumption || lia). congruence.
Qed.

Lemma fold_madd_shape (n m : nat) (T : list matrix) (M : matrix) :
  has_shape n m M -> Forall (has_shape n m) T -> has_shape n m (fold_left madd T M).
Proof.
  intros HM HT. revert M HM.
  induction HT as [|P T HP _ IH]; intros M HM; cbn [fold_left]; [assumption |].
  apply IH. apply madd_shape; assumption.
Qed.

Lemma fold_madd_get (n m : nat) (T : list matrix) (M : matrix) (i j : nat) :
  has_shape n m M -> Forall (has_shape n m) T -> (i < n)%nat ->
  get (fold_left madd T M) i j = get M i j + Rsum (map (fun P => get P i j) T).
Proof.
  intros HM HT Hi. revert M HM.
  induction HT as [|P T HP _ IH]; intros M HM; cbn [fold_left map Rsum fold_right].
  - lra.
  - rewrite (IH (madd M P) (madd_shape HM HP)), (get_madd j HM HP Hi).
    fold (Rsum (map (fun P0 => get P0 i j) T)). lra.
Qed.

(** Every relation is aggregated on its own. *)
Lemma RGCN_slices (n F E : nat) (X : matrix) (As : list imatrix) (Ws : list matrix) :
  has_shape n F X -> length As = length Ws ->
  Forall (has_shape n n) As -> Forall (has_shape F E) Ws ->
  exists L G,
    matmul_2d_3d X Ws = Ok L /\ length L = length Ws /\
    sequence (map2 dot (map astype_float As) L) = Ok G /\
    length G = length As /\ Forall (has_shape n E) G /\
    forall r, (r < length As)%nat ->
      GNN_layer (nth r As (mkArray2 0 0 [])) X (nth r Ws (zeros 0 0))
      = Ok (nth r G (zeros 0 0)).
Proof.
  intros HX. pose proof HX as [HXwf [HXn HXf]].
  revert Ws. induction As as [|A As IH]; intros [|W Ws] Hlen HAs HWs;
    cbn in Hlen; try lia.
  - exists [], []. cbn. repeat split; auto. intros r Hr. lia.
  - destruct (Forall_inv HAs) as [HA [HAn HAm]].
    destruct (Forall_inv HWs) as [HW [HWf HWe]].
    destruct (IH Ws) as [L [G [EL [HLl [EG [HGl [HGs Hnth]]]]]]];
      [lia | apply (Forall_inv_tail HAs) | apply (Forall_inv_tail HWs) |].
    destruct (@dot_ok X W) as [L0 [EL0 [[HL0 [HL0n HL0m]] _]]];
      [assumption | assumption | congruence |].
    destruct (@dot_ok (astype_float A) L0) as [G0 [EG0 [HG0 _]]];
      [apply astype_float_wf; assumption | assumption | cbn; congruence |].
    cbn [astype_float nrows] in HG0. rewrite HAn, HL0m, HWe in HG0.
    exists (L0 :: L), (G0 :: G). unfold matmul_2d_3d in *.
    cbn [map sequence map2]. rewrite EL0. cbn [bind]. rewrite EL. cbn [bind].
    rewrite EG0. cbn [bind]. rewrite EG. cbn [bind].
    split; [reflexivity |]. split; [cbn; congruence |].
    split; [reflexivity |]. split; [cbn; congruence |].
    split; [constructor; assumption |].
    intros [|r] Hr; cbn [nth].
    + unfold GNN_layer, L_0_of, ND_GNN_of. rewrite EL0. exact EG0.
    + apply Hnth. cbn in Hr. lia.
Qed.

Lemma RGCN_sum (n F E : nat) (X : matrix) (As : list imatrix) (Ws : list matrix) :
  has_shape n F X -> length As = length Ws -> As <> [] ->
  Forall (has_shape n n) As -> Forall (has_shape F E) Ws ->
  exists G out,
    length G = length As /\
    (forall r, (r < length As)%nat ->
       GNN_layer (nth r As (mkArray2 0 0 [])) X (nth r Ws (zeros 0 0))
       = Ok (nth r G (zeros 0 0))) /\
    RGCN_of As X Ws = Ok out /\ has_shape n E out /\
    forall i j, (i < n)%nat -> get out i j = Rsum (map (fun M => get M i j) G).
Proof.
  intros HX Hlen Hne HAs HWs.
  destruct (RGCN_slices HX Hlen HAs HWs) as [L [G [EL [HLl [EG [HGl [HGs Hnth]]]]]]].
  destruct G as [|G0 G]; [destruct As; [congruence | cbn in HGl; lia] |].
  exists (G0 :: G). unfold RGCN_of. rewrite EL. cbn [bind].
  unfold matmul_3d_3d. rewrite length_map.
  replace (length As =? length L)%nat with true by (symmetry; apply Nat.eqb_eq; lia).
  rewrite EG. cbn [bind np_sum_slices].
  eexists. split; [exact HGl |]. split; [exact Hnth |]. split; [reflexivity |].
  pose proof (Forall_inv HGs) as HG0. pose proof (Forall_inv_tail HGs) as HGt.
  split; [apply fold_madd_shape; assumption |].
  intros i j Hi. rewrite (@fold_madd_get n E G G0 i j HG0 HGt Hi). reflexivity.
Qed.

(** X21.  For any number of relations, with as many adjacency slices as
    weight slices, [RGCN] returns a matrix of [n] rows and [E] columns
    whose entries are the sums, over the relations, of the entries of
    the plain aggregations [A_r.dot(X.dot(W_r))]: relations never mix
    before the final sum. *)
Theorem RGCN_is_sum_over_relations
        (n F E : nat) (X : matrix) (A_rels : list imatrix) (W_rels : list matrix) :
  has_shape n F X -> length A_rels = length W_rels -> A_rels <> [] ->
  Forall (has_shape n n) A_rels -> Forall (has_shape F E) W_rels ->
  exists G out,
    length G = length A_rels /\
    (forall r, (r < length A_rels)%nat ->
       GNN_layer (nth r A_rels (mkArray2 0 0 [])) X (nth r W_rels (zeros 0 0))
       = Ok (nth r G (zeros 0 0))) /\
    RGCN_of A_rels X W_rels = Ok out /\ has_shape n E out /\
    forall i j, (i < n)%nat -> get out i j = Rsum (map (fun M => get M i j) G).
Proof. intros HX Hlen Hne HAs HWs. exact (RGCN_sum HX Hlen Hne HAs HWs). Qed.

Lemma RGCN_is_sum_over_relations_witness :
  exists G out,
    length G = length [A_cycle; A_notebook; A_directed] /\
    (forall r, (r < length [A_cycle; A_notebook; A_directed])%nat ->
       GNN_layer (nth r [A_cycle; A_notebook; A_directed] (mkArray2 0 0 []))
                 X_onehot (nth r [L_0_example; z1_ones; L_0_example] (zeros 0 0))
       = Ok (nth r G (zeros 0 0))) /\
    RGCN_of [A_cycle; A_notebook; A_directed] X_onehot
            [L_0_example; z1_ones; L_0_example] = Ok out /\
    has_shape 5 1 out /\
    forall i j, (i < 5)%nat -> get out i j = Rsum (map (fun M => get M i j) G).
Proof.
  apply (@RGCN_is_sum_over_relations 5 5 1 X_onehot
           [A_cycle; A_notebook; A_directed] [L_0_example; z1_ones; L_0_example]).
  - shape_tac.
  - reflexivity.
  - discriminate.
  - repeat (apply Forall_cons || apply Forall_nil); shape_tac.
  - repeat (apply Forall_cons || apply Forall_nil); shape_tac.
Defined.

(* ------------------------------------------------------------------ *)
(** ** R-GCN: building the tensors *)

Lemma firstn_app_exact {T : Type} (l r : list T) (k : nat) :
  length l = k -> firstn k (l ++ r) = l.
Proof.
  intros <-. rewrite firstn_app, Nat.sub_diag, firstn_all. cbn. apply app_nil_r.
Qed.

Lemma skipn_app_exact {T : Type} (l r : list T) (k : nat) :
  length l = k -> skipn k (l ++ r) = r.
Proof.
  intros <-. rewrite skipn_app, Nat.sub_diag, skipn_all. reflexivity.
Qed.

Lemma chunks_concat {T : Type} (k : nat) (ls : list (list T)) :
  Forall (fun l => length l = k) ls -> chunks k (length ls) (concat ls) = ls.
Proof.
  induction 1 as [|l ls Hl _ IH]; [reflexivity |].
  cbn [length concat chunks].
  rewrite (@firstn_app_exact T l (concat ls) k Hl).
  rewrite (@skipn_app_exact T l (concat ls) k Hl), IH. reflexivity.
Qed.

Lemma array2_eta {T : Type} (n m : nat) (M : array2 T) :
  nrows M = n -> ncols M = m -> mkArray2 n m (rows M) = M.
Proof. destruct M. cbn. intros -> ->. reflexivity. Qed.

(** Stacking matrices of one shape and cutting the stack again. *)
Lemma reshape3_concatenate {T : Type} (n m : nat) (Ms : list (array2 T)) :
  Ms <> [] -> Forall (has_shape n m) Ms ->
  exists M,
    concatenate_axis0 Ms = Ok M /\ has_shape (length Ms * n) m M /\
    reshape3 (length Ms) n m M = Ok Ms.
Proof.
  intros Hne HMs. destruct Ms as [|M0 rest]; [congruence |].
  unfold concatenate_axis0.
  destruct (Forall_inv HMs) as [HM0 [HM0n HM0m]].
  replace (forallb _ rest) with true.
  2:{ symmetry. apply forallb_forall. intros M HM.
      pose proof (Forall_inv_tail HMs) as Hrest. rewrite Forall_forall in Hrest.
      destruct (Hrest M HM) as [_ [_ Hm]]. apply Nat.eqb_eq. congruence. }
  set (Ms := M0 :: rest) in *.
  assert (Hrowsum : list_sum (map (@nrows T) Ms) = (length Ms * n)%nat).
  { clear -HMs. induction HMs as [|M l [_ [Hn _]] _ IH]; [reflexivity |].
    cbn [map length]. change (list_sum (?h :: ?t)) with (h + list_sum t)%nat.
    rewrite IH, Hn. lia. }
  assert (Hrl : Forall (fun r => length r = m) (flat_map (@rows T) Ms)).
  { clear -HMs. induction HMs as [|M l [[_ Hr] [_ Hm]] _ IH]; [constructor |].
    cbn [flat_map]. apply Forall_app. split; [| exact IH].
    rewrite Hm in Hr. exact Hr. }
  assert (Hlen : length (flat_map (@rows T) Ms) = (length Ms * n)%nat).
  { clear -HMs. induction HMs as [|M l [[Hl _] [Hn _]] _ IH]; [reflexivity |].
    cbn [flat_map length]. rewrite length_app, IH, Hl, Hn. lia. }
  eexists. split; [reflexivity |].
  split.
  - split; [split |]; cbn [rows nrows ncols].
    + rewrite Hrowsum. exact Hlen.
    + rewrite HM0m. exact Hrl.
    + split; [exact Hrowsum | exact HM0m].
  - unfold reshape3. cbn [rows nrows ncols]. rewrite Hrowsum, HM0m.
    replace (length Ms * n * m =? length Ms * n * m)%nat with true
      by (symmetry; apply Nat.eqb_refl).
    f_equal. rewrite <- Hlen at 1. rewrite (@chunks_concat T m _ Hrl).
    rewrite flat_map_concat_map.
    rewrite <- (length_map (@rows T) Ms) at 1.
    rewrite chunks_concat.
    + rewrite map_map. rewrite <- (map_id Ms) at 2.
      apply map_ext_in. intros M HM. rewrite Forall_forall in HMs.
      destruct (HMs M HM) as [_ [Hn Hm]]. apply array2_eta; assumption.
    + apply Forall_map. eapply Forall_impl; [| exact HMs].
      intros M [[Hl _] [Hn _]]. cbn beta. congruence.
Qed.

Lemma rels_of_ok {T : Type} (n m : nat) (M_rel1 M_rel2 : array2 T) :
  has_shape n m M_rel1 -> has_shape n m M_rel2 ->
  rels_of n m M_rel1 M_rel2 = Ok [M_rel1; M_rel2].
Proof.
  intros H1 H2.
  destruct (@reshape3_concatenate T n m [M_rel1; M_rel2]) as [M [EM [_ ER]]];
    [discriminate | repeat (apply Forall_cons || apply Forall_nil); assumption |].
  unfold rels_of. rewrite EM. cbn [bind]. exact ER.
Qed.

(** X23.  Building a tensor by [np.concatenate] and [np.reshape] loses
    nothing: from two matrices of [n] rows and [m] columns the result
    has exactly these two matrices as slices 0 and 1. *)
Theorem rels_of_roundtrip {T : Type} (n m : nat) (M_rel1 M_rel2 : array2 T) :
  has_shape n m M_rel1 -> has_shape n m M_rel2 ->
  rels_of n m M_rel1 M_rel2 = Ok [M_rel1; M_rel2].
Proof. intros H1 H2. exact (rels_of_ok H1 H2). Qed.

Lemma rels_of_roundtrip_witness :
  rels_of 5 1 L_0_example z1_ones = Ok [L_0_example; z1_ones].
Proof. apply (@rels_of_roundtrip R 5 1 L_0_example z1_ones); shape_tac. Defined.

Lemma RGCN_cell_two_layers
        (n emb : nat) (X W_rel1 W_rel2 : matrix) (A_rel1 A_rel2 : imatrix) :
  has_shape n n X -> has_shape n emb W_rel1 -> has_shape n emb W_rel2 ->
  has_shape n n A_rel1 -> has_shape n n A_rel2 ->
  exists G1 G2 RGCN,
    GNN_layer A_rel1 X W_rel1 = Ok G1 /\ GNN_layer A_rel2 X W_rel2 = Ok G2 /\
    RGCN_cell n emb X W_rel1 W_rel2 A_rel1 A_rel2 = Ok RGCN /\
    has_shape n emb RGCN /\
    forall i j, (i < n)%nat -> get RGCN i j = get G1 i j + get G2 i j.
Proof.
  intros HX HW1 HW2 HA1 HA2.
  unfold RGCN_cell. rewrite (rels_of_ok HW1 HW2). cbn [bind].
  rewrite (rels_of_ok HA1 HA2). cbn [bind].
  destruct (@RGCN_sum n n emb X [A_rel1; A_rel2] [W_rel1; W_rel2])
    as [G [out [HGl [Hnth [Eo [Ho Hget]]]]]];
    [assumption | reflexivity | discriminate
     | repeat (apply Forall_cons || apply Forall_nil); assumption
     | repeat (apply Forall_cons || apply Forall_nil); assumption |].
  destruct G as [|G1 [|G2 [|G3 G]]]; cbn in HGl; try lia.
  exists G1, G2, out.
  split; [apply (Hnth 0%nat); cbn; lia |].
  split; [apply (Hnth 1%nat); cbn; lia |].
  split; [exact Eo |]. split; [exact Ho |].
  intros i j Hi. rewrite (Hget i j Hi). cbn [map Rsum fold_right]. lra.
Qed.

(** X24.  Cell 5 as a whole, for two relations: the output is the
    entrywise sum of the two plain aggregations
    [A_rel1.dot(X.dot(W_rel1))] and [A_rel2.dot(X.dot(W_rel2))]. *)
Theorem RGCN_cell_is_sum_of_two_layers
        (n emb : nat) (X W_rel1 W_rel2 : matrix) (A_rel1 A_rel2 : imatrix) :
  has_shape n n X -> has_shape n emb W_rel1 -> has_shape n emb W_rel2 ->
  has_shape n n A_rel1 -> has_shape n n A_rel2 ->
  exists G1 G2 RGCN,
    GNN_layer A_rel1 X W_rel1 = Ok G1 /\ GNN_layer A_rel2 X W_rel2 = Ok G2 /\
    RGCN_cell n emb X W_rel1 W_rel2 A_rel1 A_rel2 = Ok RGCN /\
    has_shape n emb RGCN /\
    forall i j, (i < n)%nat -> get RGCN i j = get G1 i j + get G2 i j.
Proof.
  intros HX HW1 HW2 HA1 HA2. exact (RGCN_cell_two_layers HX HW1 HW2 HA1 HA2).
Qed.

Lemma RGCN_cell_is_sum_of_two_layers_witness :
  exists G1 G2 RGCN,
    GNN_layer A_cycle X_onehot L_0_example = Ok G1 /\
    GNN_layer A_directed X_onehot z1_ones = Ok G2 /\
    RGCN_cell 5 1 X_onehot L_0_example z1_ones A_cycle A_directed = Ok RGCN /\
    has_shape 5 1 RGCN /\
    forall i j, (i < 5)%nat -> get RGCN i j = get G1 i j + get G2 i j.
Proof.
  apply (@RGCN_cell_is_sum_of_two_layers 5 1 X_onehot L_0_example z1_ones
           A_cycle A_directed); shape_tac.
Defined.

Lemma In_where_eq1_one (A : imatrix) (r c : nat) :
  In (r, c) (where_eq1 A) -> iget A r c = 1%Z.
Proof.
  intros H. rewrite where_eq1_blocks in H. apply in_flat_map in H.
  destruct H as [r' [_ H]]. apply in_map_iff in H.
  destruct H as [c' [E Hc']]. injection E as -> ->.
  apply neighbors_lt in Hc'. apply Hc'.
Qed.

Lemma A_rel2_of_facts (n : nat) (A_rel2 : imatrix) :
  has_shape n n A_rel2 ->
  Forall (Forall (fun a => (0 <= a < 3)%Z)) (rows A_rel2) ->
  has_shape n n (A_rel2_of A_rel2) /\
  binary (A_rel2_of A_rel2) /\
  (forall i j, (i < n)%nat -> (j < n)%nat ->
     (iget (A_rel2_of A_rel2) i j = 1%Z <-> i <> j /\ iget A_rel2 i j = 1%Z)) /\
  forall i, ~ In (i, i) (where_eq1 (A_rel2_of A_rel2)).
Proof.
  intros HA Hrange.
  pose proof (fill_diagonal_shape 0 HA) as HF.
  pose proof (set_where_gt1_shape 0 HF) as HS.
  change (has_shape n n (A_rel2_of A_rel2)) in HS.
  assert (Hget : forall i j, (i < n)%nat -> (j < n)%nat ->
            iget (A_rel2_of A_rel2) i j
            = if (i =? j)%nat then 0%Z
              else if (1 <? iget A_rel2 i j)%Z then 0%Z else iget A_rel2 i j).
  { intros i j Hi Hj. unfold A_rel2_of.
    destruct HF as [HFwf [HFn HFm]].
    rewrite iget_set_where_gt1 by (try assumption; lia).
    rewrite (iget_fill_diagonal 0 HA) by assumption.
    destruct (i =? j)%nat; reflexivity. }
  assert (Hin : forall i j, (i < n)%nat -> (j < n)%nat ->
            (0 <= iget A_rel2 i j < 3)%Z).
  { intros i j Hi Hj. destruct HA as [[Hl Hr] [Hn Hm]].
    rewrite Forall_forall in Hrange, Hr.
    assert (Hrow : In (row A_rel2 i) (rows A_rel2))
      by (apply nth_In; lia).
    pose proof (Hrange _ Hrow) as Hrr. rewrite Forall_forall in Hrr.
    apply Hrr. apply nth_In. rewrite (Hr _ Hrow). lia. }
  assert (Hone : forall i j, (i < n)%nat -> (j < n)%nat ->
            (iget (A_rel2_of A_rel2) i j = 1%Z <-> i <> j /\ iget A_rel2 i j = 1%Z)).
  { intros i j Hi Hj. rewrite (Hget i j Hi Hj).
    destruct (Nat.eqb_spec i j) as [Eij | Nij].
    - split; [discriminate | intros [Hc _]; contradiction].
    - destruct (Z.ltb_spec 1 (iget A_rel2 i j)) as [Hgt | Hle].
      + split; [discriminate | intros [_ Hc]; lia].
      + split; [intros H1; split; assumption | intros [_ H1]; exact H1]. }
  split; [exact HS |]. split; [| split; [exact Hone |]].
  - destruct HS as [HSwf [HSn HSm]].
    unfold binary. apply (Forall_entries 0%Z); [assumption |].
    intros i j Hi Hj. fold (iget (A_rel2_of A_rel2) i j).
    rewrite Hget by lia.
    destruct (i =? j)%nat; [left; reflexivity |].
    pose proof (Hin i j ltac:(lia) ltac:(lia)) as Hr.
    destruct (Z.ltb_spec 1 (iget A_rel2 i j)); [left; reflexivity | lia].
  - intros i Hi. pose proof (where_eq1_range _ _ Hi) as [Hr Hc].
    cbn [fst snd] in Hr, Hc. destruct HS as [_ [HSn HSm]].
    apply In_where_eq1_one in Hi.
    apply Hone in Hi; [| lia | lia]. destruct Hi as [Hne _]. apply Hne. reflexivity.
Qed.

(** X25.  The adjacency matrix of relation 2, from a square matrix of
    draws in 0..2: same shape, zeros and ones only, a 1 in [(i, j)]
    exactly when [i <> j] and the draw was 1 (a draw of 2 is erased, not
    capped), hence no edge from a node to itself. *)
Theorem A_rel2_has_no_self_loops (n : nat) (A_rel2 : imatrix) :
  has_shape n n A_rel2 ->
  Forall (Forall (fun a => (0 <= a < 3)%Z)) (rows A_rel2) ->
  has_shape n n (A_rel2_of A_rel2) /\
  binary (A_rel2_of A_rel2) /\
  (forall i j, (i < n)%nat -> (j < n)%nat ->
     (iget (A_rel2_of A_rel2) i j = 1%Z <-> i <> j /\ iget A_rel2 i j = 1%Z)) /\
  forall i, ~ In (i, i) (where_eq1 (A_rel2_of A_rel2)).
Proof. intros HA Hrange. exact (A_rel2_of_facts HA Hrange). Qed.

Lemma A_rel2_has_no_self_loops_witness :
  has_shape 5 5 (A_rel2_of A_rel2_draw) /\
  binary (A_rel2_of A_rel2_draw) /\
  (forall i j, (i < 5)%nat -> (j < 5)%nat ->
     (iget (A_rel2_of A_rel2_draw) i j = 1%Z
      <-> i <> j /\ iget A_rel2_draw i j = 1%Z)) /\
  forall i, ~ In (i, i) (where_eq1 (A_rel2_of A_rel2_draw)).
Proof.
  apply (@A_rel2_has_no_self_loops 5 A_rel2_draw).
  - shape_tac.
  - unfold A_rel2_draw. cbn [rows].
    repeat (apply Forall_cons || apply Forall_nil); lia.
Defined.

(** Over a matrix of zeros and ones, the plain aggregation adds the
    projected features of the neighbours. *)
Lemma GNN_layer_neighbors (n F E : nat) (A : imatrix) (X W L_0 G : matrix) :
  has_shape n n A -> binary A -> has_shape n F X -> has_shape F E W ->
  L_0_of X W = Ok L_0 -> GNN_layer A X W = Ok G ->
  forall i j, (i < n)%nat ->
    get G i j = Rsum (map (fun k => get L_0 k j) (neighbors A i)).
Proof.
  intros [HAwf [HAn HAm]] Hb [HXwf [HXn HXf]] [HWwf [HWf HWe]] EL EG i j Hi.
  unfold GNN_layer in EG. rewrite EL in EG. cbn [bind] in EG.
  unfold L_0_of in EL.
  destruct (@dot_ok X W) as [L' [EL' [[HLwf [HLn HLm]] _]]];
    [assumption | assumption | congruence |].
  rewrite EL in EL'. injection EL' as <-.
  unfold ND_GNN_of in EG.
  destruct (@dot_ok (astype_float A) L_0) as [G' [EG' [_ HGrows]]];
    [apply astype_float_wf; assumption | assumption
     | cbn [astype_float ncols]; congruence |].
  rewrite EG in EG'. injection EG' as <-.
  unfold get at 1, row at 1. rewrite HGrows. cbn [astype_float rows].
  rewrite map_map.
  rewrite nth_map_lt with (d := []) by (destruct HAwf; lia).
  fold (row A i).
  destruct HLwf as [HLl HLr].
  rewrite vecmat_binary_row;
    [| rewrite (row_length HAwf) by lia; lia | assumption | apply binary_row; assumption].
  rewrite <- (@neighbors_row A i) by (assumption || lia).
  rewrite vsum_nth.
  - rewrite map_map. reflexivity.
  - apply Forall_map. apply Forall_forall. intros k Hk.
    apply neighbors_lt in Hk. destruct Hk as [Hk _].
    rewrite Forall_forall in HLr. apply HLr. apply nth_In. lia.
Qed.

(** X26.  Cell 5 with its adjacency matrices as the notebook builds
    them: relation 1 is used as drawn, because [np.fill_diagonal(A, 0)]
    clears the diagonal of another array, and relation 2 after its own
    clean-up.  Every output entry adds the projections of the
    neighbours under relation 1 and under relation 2; a node is its own
    neighbour under relation 1 exactly when the draw put a 1 on the
    diagonal, and never under relation 2. *)
Theorem RGCN_cell_adds_typed_neighbors
        (n emb : nat) (X W_rel1 W_rel2 : matrix) (A_rel1 A_rel2 : imatrix) :
  has_shape n n X -> has_shape n emb W_rel1 -> has_shape n emb W_rel2 ->
  has_shape n n A_rel1 -> binary A_rel1 ->
  has_shape n n A_rel2 ->
  Forall (Forall (fun a => (0 <= a < 3)%Z)) (rows A_rel2) ->
  exists L1 L2 RGCN,
    L_0_of X W_rel1 = Ok L1 /\ L_0_of X W_rel2 = Ok L2 /\
    RGCN_cell n emb X W_rel1 W_rel2 A_rel1 (A_rel2_of A_rel2) = Ok RGCN /\
    has_shape n emb RGCN /\
    forall i, (i < n)%nat ->
      (In i (neighbors A_rel1 i) <-> iget A_rel1 i i = 1%Z) /\
      ~ In i (neighbors (A_rel2_of A_rel2) i) /\
      forall j,
        get RGCN i j
        = Rsum (map (fun k => get L1 k j) (neighbors A_rel1 i))
          + Rsum (map (fun k => get L2 k j) (neighbors (A_rel2_of A_rel2) i)).
Proof.
  intros HX HW1 HW2 HA1 Hb1 HA2 Hrange.
  destruct (A_rel2_of_facts HA2 Hrange) as [HA2' [Hb2 [Hone _]]].
  destruct (RGCN_cell_two_layers HX HW1 HW2 HA1 HA2')
    as [G1 [G2 [out [EG1 [EG2 [Eo [Ho Hget]]]]]]].
  assert (HL : forall W, has_shape n emb W -> exists L, L_0_of X W = Ok L).
  { intros W [HWwf [HWn HWm]]. destruct HX as [HXwf [HXn HXm]].
    destruct (@dot_ok X W) as [L [EL _]]; [assumption | assumption | congruence |].
    exists L. exact EL. }
  destruct (HL _ HW1) as [L1 EL1]. destruct (HL _ HW2) as [L2 EL2].
  exists L1, L2, out.
  split; [exact EL1 |]. split; [exact EL2 |]. split; [exact Eo |].
  split; [exact Ho |].
  intros i Hi. split; [| split].
  - unfold neighbors. rewrite filter_In, in_seq, Z.eqb_eq.
    destruct HA1 as [_ [_ Hm]]. rewrite Hm.
    split; [tauto | intros; split; [lia | assumption]].
  - unfold neighbors. rewrite filter_In, Z.eqb_eq. intros [_ Hc].
    apply Hone in Hc; [| assumption | assumption]. destruct Hc as [Hc _].
    apply Hc. reflexivity.
  - intros j. rewrite (Hget i j Hi).
    rewrite (@GNN_layer_neighbors n n emb A_rel1 X W_rel1 L1 G1
               HA1 Hb1 HX HW1 EL1 EG1 i j Hi).
    rewrite (@GNN_layer_neighbors n n emb (A_rel2_of A_rel2) X W_rel2 L2 G2
               HA2' Hb2 HX HW2 EL2 EG2 i j Hi).
    reflexivity.
Qed.

Lemma RGCN_cell_adds_typed_neighbors_witness :
  exists L1 L2 RGCN,
    L_0_of X_onehot L_0_example = Ok L1 /\ L_0_of X_onehot z1_ones = Ok L2 /\
    RGCN_cell 5 1 X_onehot L_0_example z1_ones A_notebook (A_rel2_of A_rel2_draw)
    = Ok RGCN /\
    has_shape 5 1 RGCN /\
    forall i, (i < 5)%nat ->
      (In i (neighbors A_notebook i) <-> iget A_notebook i i = 1%Z) /\
      ~ In i (neighbors (A_rel2_of A_rel2_draw) i) /\
      forall j,
        get RGCN i j
        = Rsum (map (fun k => get L1 k j) (neighbors A_notebook i))
          + Rsum (map (fun k => get L2 k j) (neighbors (A_rel2_of A_rel2_draw) i)).
Proof.
  apply (@RGCN_cell_adds_typed_neighbors 5 1 X_onehot L_0_example z1_ones
           A_notebook A_rel2_draw); try shape_tac.
  - unfold binary, A_notebook. cbn [rows].
    repeat (apply Forall_cons || apply Forall_nil); auto.
  - unfold A_rel2_draw. cbn [rows].
    repeat (apply Forall_cons || apply Forall_nil); lia.
Defined.

(* ------------------------------------------------------------------ *)
(** ** Multi-head GAT: the concatenation *)

Lemma row_concatenate_axis1 (M0 : matrix) (rest : list matrix) (i : nat) :
  (i < nrows M0)%nat ->
  row (mkArray2 (nrows M0) (list_sum (map (@ncols R) (M0 :: rest)))
         (map (fun i => flat_map (fun M => row M i) (M0 :: rest)) (seq 0 (nrows M0)))) i
  = flat_map (fun M => row M i) (M0 :: rest).
Proof.
  intros Hi. unfold row at 1. cbn [rows].
  apply (@nth_map_seq _ (fun i => flat_map (fun M => row M i) (M0 :: rest))).
  assumption.
Qed.

(** X27.  [np.concatenate((layer1, layer2), axis=1)] of two heads with
    the same number of rows: the result keeps the rows, has the columns
    of both, and its row [i] is row [i] of the first head followed by
    row [i] of the second. *)
Theorem concat_heads_puts_rows_side_by_side
        (N E1 E2 : nat) (layer1 layer2 : matrix) :
  has_shape N E1 layer1 -> has_shape N E2 layer2 ->
  exists M,
    concat_heads layer1 layer2 = Ok M /\ has_shape N (E1 + E2) M /\
    forall i, (i < N)%nat -> row M i = row layer1 i ++ row layer2 i.
Proof.
  intros [H1wf [H1n H1m]] [H2wf [H2n H2m]].
  unfold concat_heads, concatenate_axis1. cbn [forallb].
  replace (nrows layer2 =? nrows layer1)%nat with true
    by (symmetry; apply Nat.eqb_eq; congruence).
  cbn [andb]. eexists. split; [reflexivity |].
  assert (Hrow : forall i, (i < N)%nat ->
            row (mkArray2 (nrows layer1) (list_sum (map (@ncols R) [layer1; layer2]))
                   (map (fun i => flat_map (fun M => row M i) [layer1; layer2])
                        (seq 0 (nrows layer1)))) i
            = row layer1 i ++ row layer2 i).
  { intros i Hi. rewrite row_concatenate_axis1 by lia.
    cbn [flat_map]. rewrite app_nil_r. reflexivity. }
  split; [| exact Hrow].
  split; [split |]; cbn [rows nrows ncols].
  - rewrite length_map, length_seq. reflexivity.
  - apply Forall_map. apply Forall_forall. intros i Hi. apply in_seq in Hi.
    cbn [flat_map map]. rewrite app_nil_r, length_app.
    rewrite (row_length H1wf), (row_length H2wf) by lia.
    change (list_sum [ncols layer1; ncols layer2])
      with (ncols layer1 + (ncols layer2 + 0))%nat. lia.
  - split; [assumption |].
    cbn [map]. change (list_sum [ncols layer1; ncols layer2])
      with (ncols layer1 + (ncols layer2 + 0))%nat. lia.
Qed.

Lemma concat_heads_puts_rows_side_by_side_witness :
  exists M,
    concat_heads head_example L_0_example = Ok M /\ has_shape 5 (3 + 1) M /\
    forall i, (i < 5)%nat -> row M i = row head_example i ++ row L_0_example i.
Proof.
  apply (@concat_heads_puts_rows_side_by_side 5 3 1 head_example L_0_example);
    shape_tac.
Defined.

(* ------------------------------------------------------------------ *)
(** ** GNN: the assertion of cell 3 *)

Lemma ND_GNN_neighbors (n E : nat) (A : imatrix) (L_0 : matrix) :
  has_shape n n A -> binary A -> has_shape n E L_0 ->
  exists ND_GNN,
    ND_GNN_of A L_0 = Ok ND_GNN /\ has_shape n E ND_GNN /\
    forall i j, (i < n)%nat ->
      get ND_GNN i j = Rsum (map (fun k => get L_0 k j) (neighbors A i)).
Proof.
  intros [HAwf [HAn HAm]] Hb [HLwf [HLn HLm]].
  unfold ND_GNN_of.
  destruct (@dot_ok (astype_float A) L_0) as [G [EG [HG HGrows]]];
    [apply astype_float_wf; assumption | assumption
     | cbn [astype_float ncols]; congruence |].
  exists G. split; [exact EG |].
  cbn [astype_float nrows] in HG. rewrite HAn, HLm in HG. split; [exact HG |].
  intros i j Hi.
  unfold get at 1, row at 1. rewrite HGrows. cbn [astype_float rows].
  rewrite map_map.
  rewrite nth_map_lt with (d := []) by (destruct HAwf; lia).
  fold (row A i).
  destruct HLwf as [HLl HLr].
  rewrite vecmat_binary_row;
    [| rewrite (row_length HAwf) by lia; lia | assumption | apply binary_row; assumption].
  rewrite <- (@neighbors_row A i) by (assumption || lia).
  rewrite vsum_nth.
  - rewrite map_map. reflexivity.
  - apply Forall_map. apply Forall_forall. intros k Hk.
    apply neighbors_lt in Hk. destruct Hk as [Hk _].
    rewrite Forall_forall in HLr. apply HLr. apply nth_In. lia.
Qed.

(** X29.  The assertion that closes cell 3, for every adjacency matrix
    of zeros and ones and at every entry: [ND_GNN[i, j]] is the sum of
    [L_0[k, j]] over the neighbours [k] of [i]. *)
Theorem ND_GNN_adds_neighbor_entries (n E : nat) (A : imatrix) (L_0 : matrix) :
  has_shape n n A -> binary A -> has_shape n E L_0 ->
  exists ND_GNN,
    ND_GNN_of A L_0 = Ok ND_GNN /\ has_shape n E ND_GNN /\
    forall i j, (i < n)%nat ->
      get ND_GNN i j = Rsum (map (fun k => get L_0 k j) (neighbors A i)).
Proof. intros HA Hb HL. exact (ND_GNN_neighbors HA Hb HL). Qed.

Lemma ND_GNN_adds_neighbor_entries_witness :
  exists ND_GNN,
    ND_GNN_of A_notebook L_0_example = Ok ND_GNN /\ has_shape 5 1 ND_GNN /\
    forall i j, (i < 5)%nat ->
      get ND_GNN i j = Rsum (map (fun k => get L_0_example k j) (neighbors A_notebook i)).
Proof.
  apply (@ND_GNN_adds_neighbor_entries 5 1 A_notebook L_0_example); try shape_tac.
  unfold binary, A_notebook. cbn [rows].
  repeat (apply Forall_cons || apply Forall_nil); auto.
Defined.
